(** * net::socket and net::socket_stream (primes/include/socket.hpp)

    A shallow embedding of the socket wrapper: the owning handle
    [net::socket], its static helpers [net::socket_ops], the exception type
    [net::network_exception] and the buffered stream [net::socket_stream].

    The operating system is not part of the program.  It is modelled as a
    [world] (errno, the bytes queued on each descriptor, which descriptors
    are connected to each other, and the chronological log of every call the
    program issued) together with an [environment] that decides what each
    call returns.  Every function of the source becomes a function that
    takes the world and returns the new world next to its result. *)

From Stdlib Require Import ZArith Lia.
From stdpp Require Import base numbers list option gmap strings.

Local Open Scope Z_scope.

Abbreviation byte := Byte.byte.

(** ** Machine integers *)

Definition INT_MIN : Z := - 2 ^ 31.
Definition INT_MAX : Z := 2 ^ 31 - 1.

(** [(int) x]: conversion of a wider signed value to a 32-bit [int]. *)
Definition to_int (x : Z) : Z := (x + 2 ^ 31) mod 2 ^ 32 - 2 ^ 31.

(** Arithmetic on [size_t] is modulo 2^64. *)
Definition to_size_t (x : Z) : Z := x mod 2 ^ 64.

(** [htons] on a little-endian host: the two bytes of a 16-bit value
    swapped. *)
Definition htons (x : Z) : Z :=
  Z.lor (Z.shiftl (Z.land x 255) 8) (Z.land (Z.shiftr x 8) 255).

Definition AF_INET : Z := 2.
Definition SOCK_STREAM : Z := 1.
Definition SHUT_RDWR : Z := 2.
Definition MSG_NOSIGNAL : Z := 16384.
Definition INADDR_ANY : list byte := [Byte.x00; Byte.x00; Byte.x00; Byte.x00].

(** ** The operating system *)

Record hostent := Hostent { h_addr : list byte; h_length : Z }.

Record sockaddr_in := SockAddr {
  sin_family : Z;
  sin_port : Z;
  sin_addr : list byte
}.

(** [memcpy dst src n]: the first [n] bytes of [dst] replaced by the first
    [n] bytes of [src]. *)
Definition memcpy (dst src : list byte) (n : Z) : list byte :=
  take (Z.to_nat n) src ++ drop (Z.to_nat n) dst.

(** The calls the program issues, with their arguments. *)
Inductive oscall :=
  | c_socket (domain type protocol : Z)
  | c_gethostbyname (name : string)
  | c_connect (fd : Z) (addr : sockaddr_in)
  | c_bind (fd : Z) (addr : sockaddr_in)
  | c_listen (fd backlog : Z)
  | c_accept (fd : Z)
  | c_send (fd : Z) (data : list byte) (len flags : Z)
  | c_recv (fd : Z) (len flags : Z)
  | c_shutdown (fd how : Z)
  | c_close (fd : Z).

(** What is observable of a run: the calls with the value each returned, and
    the teardown of the two library objects a [socket_stream] owns. *)
Inductive event :=
  | Call (c : oscall) (result : Z)
  | IostreamTeardown
  | FilebufTeardown (fd : Z).

Record world := World {
  errno : Z;
  inbox : gmap Z (list byte);
  peer : gmap Z Z;
  trace : list event
}.

(** Bytes that have arrived on [fd] and have not been read yet. *)
Definition pending (w : world) (fd : Z) : list byte :=
  default [] (inbox w !! fd).

Definition log (e : event) (w : world) : world :=
  World (errno w) (inbox w) (peer w) (trace w ++ [e]).

Definition set_errno (e : Z) (w : world) : world :=
  World e (inbox w) (peer w) (trace w).

Definition set_inbox (fd : Z) (bs : list byte) (w : world) : world :=
  World (errno w) (<[fd := bs]> (inbox w)) (peer w) (trace w).

(** Bytes written on [fd] are queued on the descriptor it is connected to;
    written on an unconnected descriptor they go nowhere. *)
Definition deliver (fd : Z) (bs : list byte) (w : world) : world :=
  match peer w !! fd with
  | Some p => set_inbox p (pending w p ++ bs) w
  | None => w
  end.

(** The answer of the system to one call: the value returned and the value
    of [errno] afterwards. *)
Record reply := Reply { value : Z; err : Z }.

(** The environment resolves every choice that is not the program's: what a
    call returns (in particular how many bytes a transfer moves) and what a
    host name resolves to.  It may depend on everything that happened so
    far. *)
Record environment := Environment {
  answer : world -> oscall -> reply;
  hosts : world -> string -> option hostent
}.

Module os.
Section Calls.
Variable E : environment.

(** A call with no effect on the queues: it is logged, errno is updated
    and the value is returned. *)
Definition call (c : oscall) (w : world) : Z * world :=
  let r := answer E w c in
  (value r, log (Call c (value r)) (set_errno (err r) w)).

Definition gethostbyname (name : string) (w : world)
  : option hostent * world :=
  let r := answer E w (c_gethostbyname name) in
  let h := hosts E w name in
  (h, log (Call (c_gethostbyname name) (match h with Some _ => 1 | None => 0 end))
        (set_errno (err r) w)).

(** [::send(fd, buf, size, flags)] reads at most [size] bytes at [buf].
    A positive result is the number of bytes taken. *)
Definition send (fd : Z) (buf : list byte) (size flags : Z) (w : world)
  : Z * world :=
  let data := take (Z.to_nat size) buf in
  let (n, w') := call (c_send fd data size flags) w in
  (n, if 0 <? n then deliver fd (take (Z.to_nat n) data) w' else w').

(** [::recv(fd, buf, size, flags)] stores at most [size] bytes at [buf],
    taken from the head of the queue of [fd]; returns the result and the
    memory at [buf]. *)
Definition recv (fd : Z) (buf : list byte) (size flags : Z) (w : world)
  : Z * list byte * world :=
  let (n, w') := call (c_recv fd size flags) w in
  if 0 <? n then
    let k := Z.to_nat (Z.min n size) in
    let got := take k (pending w fd) in
    (n, got ++ drop (length got) buf, set_inbox fd (drop k (pending w fd)) w')
  else (n, buf, w').
End Calls.
End os.

(** ** net::socket_ops *)

Module socket_ops.
Section Ops.
Variable E : environment.

Definition init (w : world) : world := w.

Definition send (fd : Z) (buf : list byte) (size : Z) (w : world)
  : Z * world :=
  let (r, w') := os.send E fd buf size MSG_NOSIGNAL w in (to_int r, w').

Definition recv (fd : Z) (buf : list byte) (size : Z) (w : world)
  : Z * list byte * world :=
  let '(r, buf', w') := os.recv E fd buf size MSG_NOSIGNAL w in
  (to_int r, buf', w').

Definition shutdown (fd : Z) (w : world) : world :=
  snd (os.call E (c_shutdown fd SHUT_RDWR) w).

Definition close (fd : Z) (w : world) : Z * world :=
  os.call E (c_close fd) (shutdown fd w).

Definition create_inet (w : world) : Z * world :=
  os.call E (c_socket AF_INET SOCK_STREAM 0) w.
End Ops.
End socket_ops.

(** ** net::network_exception *)

Record network_exception := NetworkException { ret : Z }.

(** The constructor captures [errno]. *)
Definition network_exception_new (w : world) : network_exception :=
  NetworkException (errno w).

(** How a call of the program ends: it returns, it throws, or (for the two
    loops, which are run with a bound on the number of iterations) the bound
    was reached before the loop ended. *)
Inductive outcome (A : Type) :=
  | Ret (a : A)
  | Throw (e : network_exception)
  | OutOfFuel.
Arguments Ret {A} a.
Arguments Throw {A} e.
Arguments OutOfFuel {A}.

(** ** net::socket *)

Module socket.

Record t := Socket { sock : Z; portno : Z }.

Definition set_sock (fd : Z) (s : t) : t := Socket fd (portno s).
Definition set_portno (p : Z) (s : t) : t := Socket (sock s) p.

Section Methods.
Variable E : environment.

(** [explicit socket(int fd)] *)
Definition of_fd (fd : Z) : t :=
  let this := Socket 0 0 in
  let this := set_portno 0 this in
  set_sock fd this.

(** [explicit socket()] *)
Definition create (w : world) : outcome t * world :=
  let (fd, w') := socket_ops.create_inet E w in
  if fd <? 0 then (Throw (network_exception_new w'), w')
  else (Ret (Socket fd 0), w').

(** [socket(socket&& rhs)]: only [sock] is assigned, so the new object's
    [portno] keeps whatever its storage held ([indeterminate]).  Returns
    the new object and what is left of [rhs]. *)
Definition move (indeterminate : Z) (rhs : t) : t * t :=
  let this := Socket (-1) indeterminate in
  (set_sock (sock rhs) this, set_sock (sock this) rhs).

Definition connect (hostname : string) (port : Z) (this : t) (w : world)
  : outcome unit * t * world :=
  let this := set_portno port this in
  let (server, w) := os.gethostbyname E hostname w in
  match server with
  | None => (Throw (network_exception_new w), this, w)
  | Some server =>
    let addr :=
      SockAddr AF_INET (htons (portno this))
        (memcpy [Byte.x00; Byte.x00; Byte.x00; Byte.x00]
           (h_addr server) (h_length server)) in
    let (r, w) := os.call E (c_connect (sock this) addr) w in
    if r <? 0 then (Throw (network_exception_new w), this, w)
    else (Ret tt, this, w)
  end.

Definition listen (port : Z) (this : t) (w : world)
  : outcome unit * t * world :=
  let this := set_portno port this in
  let addr := SockAddr AF_INET (htons (portno this)) INADDR_ANY in
  let (r, w) := os.call E (c_bind (sock this) addr) w in
  if r <? 0 then (Throw (network_exception_new w), this, w)
  else
    let (r, w) := os.call E (c_listen (sock this) 5) w in
    if r <? 0 then (Throw (network_exception_new w), this, w)
    else (Ret tt, this, w).

(** The returned object is the one [socket(client)] builds (the compiler
    elides the copy of the returned temporary). *)
Definition accept (this : t) (w : world) : outcome t * world :=
  let (client, w) := os.call E (c_accept (sock this)) w in
  if client <? 0 then (Throw (network_exception_new w), w)
  else (Ret (of_fd client), w).

Definition send (this : t) (buffer : list byte) (size : Z) (w : world)
  : outcome Z * world :=
  let (n, w) := socket_ops.send E (sock this) buffer size w in
  if n <=? 0 then (Throw (network_exception_new w), w)
  else (Ret n, w).

(** [buffer] is the memory from the pointer on, so [buffer + off] is
    [drop off buffer]. *)
Fixpoint send_all_from (fuel : nat) (this : t) (buffer : list byte)
    (size off : Z) (w : world) : outcome unit * world :=
  if off =? size then (Ret tt, w)
  else
    match fuel with
    | O => (OutOfFuel, w)
    | S fuel =>
      match send this (drop (Z.to_nat off) buffer) (to_size_t (size - off)) w with
      | (Ret n, w) => send_all_from fuel this buffer size (to_size_t (off + n)) w
      | (Throw e, w) => (Throw e, w)
      | (OutOfFuel, w) => (OutOfFuel, w)
      end
    end.

Definition send_all (fuel : nat) (this : t) (buffer : list byte) (size : Z)
    (w : world) : outcome unit * world :=
  send_all_from fuel this buffer size 0 w.

(** Returns the memory at [buffer] next to the result. *)
Definition recv (this : t) (buffer : list byte) (size : Z) (w : world)
  : outcome Z * list byte * world :=
  let '(n, buffer, w) := socket_ops.recv E (sock this) buffer size w in
  if n <=? 0 then (Throw (network_exception_new w), buffer, w)
  else (Ret n, buffer, w).

Fixpoint recv_all_from (fuel : nat) (this : t) (buffer : list byte)
    (size off : Z) (w : world) : outcome unit * list byte * world :=
  if off =? size then (Ret tt, buffer, w)
  else
    match fuel with
    | O => (OutOfFuel, buffer, w)
    | S fuel =>
      let '(r, tail, w) :=
        recv this (drop (Z.to_nat off) buffer) (to_size_t (size - off)) w in
      let buffer := take (Z.to_nat off) buffer ++ tail in
      match r with
      | Ret n => recv_all_from fuel this buffer size (to_size_t (off + n)) w
      | Throw e => (Throw e, buffer, w)
      | OutOfFuel => (OutOfFuel, buffer, w)
      end
    end.

Definition recv_all (fuel : nat) (this : t) (buffer : list byte) (size : Z)
    (w : world) : outcome unit * list byte * world :=
  recv_all_from fuel this buffer size 0 w.

Definition close (this : t) (w : world) : t * world :=
  (this, socket_ops.shutdown E (sock this) w).

(** [~socket()] *)
Definition destroy (this : t) (w : world) : t * world :=
  let w := if 0 <=? sock this then snd (socket_ops.close E (sock this) w)
           else w in
  (set_sock (-1) this, w).

(** [operator==] *)
Definition eqb (this rhs : t) : bool := sock this =? sock rhs.

(** [new char[size]] gives [size] bytes of unspecified content
    ([fresh]).  This is the function for [0 <= size]: with a negative
    [size] the allocation itself throws, before anything is called, and
    that is not described here. *)
Definition read_alloc (fuel : nat) (fresh : list byte) (this : t) (size : Z)
    (w : world) : outcome (list byte) * world :=
  let '(r, ptr, w) := recv_all fuel this fresh (to_size_t size) w in
  match r with
  | Ret _ => (Ret ptr, w)
  | Throw e => (Throw e, w)
  | OutOfFuel => (OutOfFuel, w)
  end.
End Methods.
End socket.

(** ** net::socket_stream *)

Module socket_stream.

(** [__gnu_cxx::stdio_filebuf<char>]: the descriptor it was opened on and
    its mode.  [std::iostream]: the descriptor of the buffer it reads and
    writes through. Both are library objects; of their destructors only the
    fact that they ran is recorded. *)
Record stdio_filebuf := Filebuf { fb_fd : Z; fb_in : bool; fb_out : bool }.
Record iostream := Iostream { rdbuf : Z; fail : bool }.

(** Fields in declaration order. *)
Record t := SocketStream {
  sock : socket.t;
  fbuf : stdio_filebuf;
  stream : iostream
}.

Section Methods.
Variable E : environment.

(** [explicit socket_stream(net::socket&& _sock)]; returns the stream and
    what is left of [_sock]. *)
Definition make (indeterminate : Z) (_sock : socket.t) : t * socket.t :=
  let (sock, _sock) := socket.move indeterminate _sock in
  let fbuf := Filebuf (socket.sock sock) true true in
  (SocketStream sock fbuf (Iostream (fb_fd fbuf) false), _sock).

Definition check_conn (this : t) (w : world) : outcome unit :=
  if fail (stream this) then Throw (network_exception_new w) else Ret tt.

(** [~socket_stream()]: the body of the destructor runs first, then the
    members are destroyed in the reverse of their declaration order:
    [stream], [fbuf], [sock]. *)
Definition destroy (this : t) (w : world) : t * world :=
  let (s, w) := socket.close E (sock this) w in
  let w := log IostreamTeardown w in
  let w := log (FilebufTeardown (fb_fd (fbuf this))) w in
  let (s, w) := socket.destroy E s w in
  (SocketStream s (fbuf this) (stream this), w).
End Methods.
End socket_stream.

(** * Properties *)

(** ** What the claims speak about *)

(** The events a run added to the log. *)
Definition new_events (w w' : world) : list event :=
  drop (length (trace w)) (trace w').

(** A single send or receive attempt, and the value [socket_ops] handed back
    for it. *)
Definition attempt_result (e : event) : option Z :=
  match e with
  | Call (c_send _ _ _ _) r | Call (c_recv _ _ _) r => Some (to_int r)
  | _ => None
  end.

Definition is_attempt (e : event) : bool :=
  bool_decide (is_Some (attempt_result e)).

Definition attempt_failed (e : event) : bool :=
  match attempt_result e with
  | Some n => n <=? 0
  | None => false
  end.

(** Bytes moved by the attempts of a log. *)
Fixpoint transferred (t : list event) : Z :=
  match t with
  | [] => 0
  | e :: t => Z.max 0 (default 0 (attempt_result e)) + transferred t
  end.

(** Every send that is asked for at least one byte moves at least one byte
    and at most what was asked, and the count fits the [int] it is returned
    in. *)
Definition sends_progress (E : environment) : Prop :=
  forall w fd data len flags,
    0 < len ->
    1 <= value (answer E w (c_send fd data len flags)) <= Z.min len INT_MAX.

(** Every receive on a descriptor with queued bytes moves at least one byte
    and at most what was asked and what is queued. *)
Definition recvs_progress (E : environment) : Prop :=
  forall w fd len flags,
    0 < len -> pending w fd <> [] ->
    1 <= value (answer E w (c_recv fd len flags))
      <= Z.min (Z.min len (Z.of_nat (length (pending w fd)))) INT_MAX.

Definition is_buffer_teardown (e : event) : bool :=
  match e with FilebufTeardown _ => true | _ => false end.

Definition is_shutdown_of (fd : Z) (e : event) : bool :=
  match e with
  | Call (c_shutdown fd' _) _ => fd' =? fd
  | _ => false
  end.

Definition is_os_close (e : event) : bool :=
  match e with Call (c_close _) _ => true | _ => false end.

(** Every event satisfying [P] comes strictly before every event satisfying
    [Q]. *)
Definition precedes (P Q : event -> bool) (t : list event) : Prop :=
  forall (i j : nat) a b,
    t !! i = Some a -> t !! j = Some b -> P a = true -> Q b = true ->
    (i < j)%nat.

(** A handle owns a descriptor when it holds it and it is a valid one, that
    is, one its destructor would release. *)
Definition owns (s : socket.t) (fd : Z) : Prop :=
  socket.sock s = fd /\ 0 <= fd.

(** ** Concrete environments and worlds *)

(** Nothing is connected, nothing is queued, nothing has happened. *)
Definition idle : world := World 0 ∅ ∅ [].

(** Descriptor 3 is connected to descriptor 4. *)
Definition wired : world := World 0 ∅ {[ 3 := 4 ]} [].

(** Every call returns 0 and no host name resolves. *)
Definition quiet : environment :=
  Environment (fun _ _ => Reply 0 0) (fun _ _ => None).

(** A transport that moves at most [chunk] bytes per send and at most
    [chunk + 1] per receive; [accept] hands out descriptor 7. *)
Definition chunked (chunk : Z) : environment :=
  Environment
    (fun w c =>
       match c with
       | c_send _ _ len _ => Reply (Z.min len (Z.min (Z.max 1 chunk) INT_MAX)) 0
       | c_recv fd len _ =>
         Reply (Z.min (Z.min len (Z.of_nat (length (pending w fd))))
                  (Z.min (Z.max 1 chunk + 1) INT_MAX)) 0
       | c_accept _ => Reply 7 0
       | _ => Reply 0 0
       end)
    (fun _ _ => Some (Hostent [Byte.x7f; Byte.x00; Byte.x00; Byte.x01] 4)).

(** A transport that moves two bytes on the first transfer and fails every
    later one with errno 32 (EPIPE). *)
Definition breaking : environment :=
  Environment
    (fun w c =>
       match c with
       | c_send _ _ _ _ | c_recv _ _ _ =>
         if (length (trace w) =? 0)%nat then Reply 2 0 else Reply (-1) 32
       | _ => Reply 0 0
       end)
    (fun _ _ => None).

Definition ping : list byte := [Byte.x70; Byte.x69; Byte.x6e; Byte.x67].
Definition blank : list byte := [Byte.x00; Byte.x00; Byte.x00; Byte.x00].

(** ** What the further properties speak about *)

(** Every send returns at most what was asked, be it a count or a failure,
    and a value that fits the [int] it is handed back in. *)
Definition sends_bounded (E : environment) : Prop :=
  forall w fd data len flags,
    0 < len ->
    INT_MIN <= value (answer E w (c_send fd data len flags))
      <= Z.min len INT_MAX.

(** Every receive returns at most what was asked and what is queued. *)
Definition recvs_bounded (E : environment) : Prop :=
  forall w fd len flags,
    0 < len ->
    INT_MIN <= value (answer E w (c_recv fd len flags))
      <= Z.min (Z.min len (Z.of_nat (length (pending w fd)))) INT_MAX.

(** The event is a send on [fd] that offers a tail of [buffer], without
    SIGPIPE. *)
Definition sends_tail_of (fd : Z) (buffer : list byte) (e : event) : Prop :=
  exists off len r,
    e = Call (c_send fd (take (Z.to_nat len) (drop (Z.to_nat off) buffer))
                len MSG_NOSIGNAL) r.

(** The event is a receive on [fd]. *)
Definition recvs_on (fd : Z) (e : event) : Prop :=
  exists len r, e = Call (c_recv fd len MSG_NOSIGNAL) r.

(** A system that is out of descriptors, where the address is in use and
    the peer refuses: [socket], [bind], [connect] and [accept] fail. *)
Definition refusing : environment :=
  Environment
    (fun _ c =>
       match c with
       | c_socket _ _ _ => Reply (-1) 24
       | c_bind _ _ => Reply (-1) 98
       | c_connect _ _ => Reply (-1) 111
       | c_accept _ => Reply (-1) 11
       | _ => Reply 0 0
       end)
    (fun _ _ => Some (Hostent [Byte.x7f; Byte.x00; Byte.x00; Byte.x01] 4)).

(** A transport that moves at most two bytes on the first transfer and
    resets the connection (errno 104) on every later one. *)
Definition flaky : environment :=
  Environment
    (fun w c =>
       match c with
       | c_send _ _ len _ =>
         if (length (trace w) =? 0)%nat then Reply (Z.min len 2) 0
         else Reply (-1) 104
       | c_recv fd len _ =>
         if (length (trace w) =? 0)%nat
         then Reply (Z.min (Z.min len (Z.of_nat (length (pending w fd)))) 2) 0
         else Reply (-1) 104
       | _ => Reply 0 0
       end)
    (fun _ _ => None).

Definition pong : list byte := [Byte.x70; Byte.x6f; Byte.x6e; Byte.x67].

(** ** Helper lemmas *)

Lemma to_int_small x : INT_MIN <= x <= INT_MAX -> to_int x = x.
Proof.
  unfold INT_MIN, INT_MAX, to_int. intros H.
  rewrite Z.mod_small by lia. lia.
Qed.

Lemma to_size_t_small x : 0 <= x < 2 ^ 64 -> to_size_t x = x.
Proof. unfold to_size_t. intros H. apply Z.mod_small. lia. Qed.

Lemma new_events_app w w' t : trace w' = trace w ++ t -> new_events w w' = t.
Proof. unfold new_events. intros ->. by rewrite drop_app_length. Qed.

Section Steps.
Variable E : environment.

Lemma deliver_errno fd bs w : errno (deliver fd bs w) = errno w.
Proof. unfold deliver. by destruct (peer w !! fd). Qed.

Lemma deliver_trace fd bs w : trace (deliver fd bs w) = trace w.
Proof. unfold deliver. by destruct (peer w !! fd). Qed.

Lemma deliver_peer fd bs w : peer (deliver fd bs w) = peer w.
Proof. unfold deliver. by destruct (peer w !! fd). Qed.

Lemma deliver_pending fd p bs w :
  peer w !! fd = Some p ->
  pending (deliver fd bs w) p = pending w p ++ bs.
Proof.
  unfold deliver, pending. intros ->. simpl. by rewrite lookup_insert_eq.
Qed.

(** One send attempt, spelled out. *)
Lemma send_step this buffer size w :
  let data := take (Z.to_nat size) buffer in
  let c := c_send (socket.sock this) data size MSG_NOSIGNAL in
  let r := answer E w c in
  let w1 := log (Call c (value r)) (set_errno (err r) w) in
  let w2 := if 0 <? value r
            then deliver (socket.sock this) (take (Z.to_nat (value r)) data) w1
            else w1 in
  socket.send E this buffer size w =
    (if to_int (value r) <=? 0 then Throw (NetworkException (err r))
     else Ret (to_int (value r)), w2).
Proof.
  intros data c r w1 w2.
  unfold socket.send, socket_ops.send, os.send, os.call.
  fold data c r w1 w2.
  assert (errno w2 = err r) as Herr.
  { unfold w2. destruct (0 <? value r); by rewrite ?deliver_errno. }
  unfold network_exception_new. rewrite Herr.
  by destruct (to_int (value r) <=? 0).
Qed.

(** One receive attempt, spelled out. *)
Lemma recv_step this buffer size w :
  let c := c_recv (socket.sock this) size MSG_NOSIGNAL in
  let r := answer E w c in
  let w1 := log (Call c (value r)) (set_errno (err r) w) in
  let k := Z.to_nat (Z.min (value r) size) in
  let got := take k (pending w (socket.sock this)) in
  let buffer' := if 0 <? value r then got ++ drop (length got) buffer
                 else buffer in
  let w2 := if 0 <? value r
            then set_inbox (socket.sock this)
                   (drop k (pending w (socket.sock this))) w1
            else w1 in
  socket.recv E this buffer size w =
    (if to_int (value r) <=? 0 then Throw (NetworkException (err r))
     else Ret (to_int (value r)), buffer', w2).
Proof.
  intros c r w1 k got buffer' w2.
  unfold socket.recv, socket_ops.recv, os.recv, os.call.
  fold c r w1. unfold buffer', w2, got, k.
  destruct (0 <? value r); simpl;
    by destruct (to_int (value r) <=? 0).
Qed.
End Steps.

(** ** The transfer loops *)

Section Loops.
Variable E : environment.
Variable this : socket.t.

(** The abort lemma for [send_all]: the log grows by send attempts only,
    and a failed attempt can only be the last one, with its error
    thrown. *)
Lemma send_all_from_abort buffer size fuel :
  forall off w res w',
    socket.send_all_from E fuel this buffer size off w = (res, w') ->
    exists t,
      trace w' = trace w ++ t /\
      Forall (fun e => is_attempt e = true) t /\
      forall (i : nat) e,
        t !! i = Some e -> attempt_failed e = true ->
        length t = S i /\ res = Throw (NetworkException (errno w')).
Proof.
  induction fuel as [|fuel IH]; intros off w res w' Hrun; simpl in Hrun.
  - exists []. rewrite app_nil_r.
    destruct (off =? size); inversion Hrun; subst; by repeat split.
  - destruct (off =? size).
    { exists []. rewrite app_nil_r. inversion Hrun; subst; by repeat split. }
    pose proof (send_step E this (drop (Z.to_nat off) buffer)
                  (to_size_t (size - off)) w) as Hs.
    cbv zeta in Hs. rewrite Hs in Hrun. clear Hs.
    set (c := c_send _ _ _ _) in *. set (r := answer E w c) in *.
    set (w2 := if 0 <? value r then _ else _) in *.
    assert (trace w2 = trace w ++ [Call c (value r)]) as Ht.
    { unfold w2. destruct (0 <? value r); by rewrite ?deliver_trace. }
    assert (errno w2 = err r) as He.
    { unfold w2. destruct (0 <? value r); by rewrite ?deliver_errno. }
    destruct (to_int (value r) <=? 0) eqn:Hn.
    + inversion Hrun; subst res w'. exists [Call c (value r)].
      split; [done|]. split; [by repeat constructor|].
      intros [|i] e Hi Hf; simpl in Hi; [|done].
      by rewrite He.
    + apply IH in Hrun as (t & Ht' & Hall & Hlast).
      exists (Call c (value r) :: t). split.
      { rewrite Ht', Ht. by rewrite <- app_assoc. }
      split; [by constructor|].
      intros [|i] e Hi Hf; simpl in Hi.
      * inversion Hi; subst e. unfold attempt_failed in Hf. simpl in Hf.
        congruence.
      * destruct (Hlast i e Hi Hf) as [Hlen ->]. simpl. by rewrite Hlen.
Qed.

Lemma recv_all_from_abort size fuel :
  forall buffer off w res buffer' w',
    socket.recv_all_from E fuel this buffer size off w = (res, buffer', w') ->
    exists t,
      trace w' = trace w ++ t /\
      Forall (fun e => is_attempt e = true) t /\
      forall (i : nat) e,
        t !! i = Some e -> attempt_failed e = true ->
        length t = S i /\ res = Throw (NetworkException (errno w')).
Proof.
  induction fuel as [|fuel IH]; intros buffer off w res buffer' w' Hrun;
    simpl in Hrun.
  - exists []. rewrite app_nil_r.
    destruct (off =? size); inversion Hrun; subst; by repeat split.
  - destruct (off =? size).
    { exists []. rewrite app_nil_r. inversion Hrun; subst; by repeat split. }
    pose proof (recv_step E this (drop (Z.to_nat off) buffer)
                  (to_size_t (size - off)) w) as Hs.
    cbv zeta in Hs. rewrite Hs in Hrun. clear Hs.
    set (c := c_recv _ _ _) in *. set (r := answer E w c) in *.
    set (w2 := if 0 <? value r then set_inbox _ _ _ else _) in *.
    set (b2 := take (Z.to_nat off) buffer ++ _) in *.
    assert (trace w2 = trace w ++ [Call c (value r)]) as Ht.
    { unfold w2. by destruct (0 <? value r). }
    assert (errno w2 = err r) as He.
    { unfold w2. by destruct (0 <? value r). }
    destruct (to_int (value r) <=? 0) eqn:Hn.
    + inversion Hrun; subst res w'. exists [Call c (value r)].
      split; [done|]. split; [by repeat constructor|].
      intros [|i] e Hi Hf; simpl in Hi; [|done].
      by rewrite He.
    + apply IH in Hrun as (t & Ht' & Hall & Hlast).
      exists (Call c (value r) :: t). split.
      { rewrite Ht', Ht. by rewrite <- app_assoc. }
      split; [by constructor|].
      intros [|i] e Hi Hf; simpl in Hi.
      * inversion Hi; subst e. unfold attempt_failed in Hf. simpl in Hf.
        congruence.
      * destruct (Hlast i e Hi Hf) as [Hlen ->]. simpl. by rewrite Hlen.
Qed.
Lemma chunk_then_rest {A} (l : list A) (n req : nat) :
  (n <= req)%nat ->
  take n (take req l) ++ take (req - n) (drop n l) = take req l.
Proof.
  intros Hn. rewrite take_take, Nat.min_l by done.
  rewrite take_take_drop. f_equal. lia.
Qed.

(** While every attempt makes progress, [send_all] runs to completion: it
    returns, its attempts add up to [size - off] bytes, and these are the
    bytes of the buffer from [off] on, queued at the peer in order. *)
Lemma send_all_from_ok buffer size fuel :
  sends_progress E -> 0 <= size < 2 ^ 64 ->
  forall off w,
    0 <= off <= size -> (Z.to_nat (size - off) < fuel)%nat ->
    exists w' t,
      socket.send_all_from E fuel this buffer size off w = (Ret tt, w') /\
      trace w' = trace w ++ t /\
      Forall (fun e => is_attempt e = true) t /\
      transferred t = size - off /\
      peer w' = peer w /\
      forall p, peer w !! socket.sock this = Some p ->
        pending w' p =
        pending w p ++
          take (Z.to_nat (size - off)) (drop (Z.to_nat off) buffer).
Proof.
  intros HE Hsize.
  induction fuel as [|fuel IH]; intros off w Hoff Hfuel; [lia|].
  simpl. destruct (Z.eqb_spec off size) as [->|Hne].
  { exists w, []. rewrite app_nil_r, Z.sub_diag. simpl.
    repeat split; try done. intros p _. by rewrite app_nil_r. }
  pose proof (send_step E this (drop (Z.to_nat off) buffer)
                (to_size_t (size - off)) w) as Hs.
  cbv zeta in Hs. rewrite Hs. clear Hs.
  rewrite to_size_t_small by lia.
  set (data := take (Z.to_nat (size - off)) (drop (Z.to_nat off) buffer)).
  set (c := c_send _ _ _ _). set (r := answer E w c).
  pose proof (HE w (socket.sock this) data (size - off) MSG_NOSIGNAL) as Hr.
  fold c r in Hr. specialize (Hr ltac:(lia)).
  assert (to_int (value r) = value r) as Hint.
  { apply to_int_small. unfold INT_MIN, INT_MAX in *. lia. }
  rewrite Hint.
  destruct (Z.leb_spec (value r) 0) as [?|_]; [lia|].
  destruct (Z.ltb_spec 0 (value r)) as [_|?]; [|lia].
  set (w2 := deliver _ _ _).
  destruct (IH (to_size_t (off + value r)) w2) as (w' & t & Hrun & Ht & Hall & Hsum & Hpeer & Hq).
  { rewrite to_size_t_small by lia. lia. }
  { rewrite to_size_t_small by lia. lia. }
  rewrite to_size_t_small in Hsum, Hq by lia.
  exists w', (Call c (value r) :: t). split; [done|].
  split.
  { rewrite Ht. unfold w2. rewrite deliver_trace. simpl.
    by rewrite <- app_assoc. }
  split; [by constructor|].
  split.
  { simpl. rewrite Hint, Hsum. lia. }
  split.
  { rewrite Hpeer. unfold w2. by rewrite deliver_peer. }
  intros p Hp. rewrite Hq by (unfold w2; by rewrite deliver_peer).
  unfold w2. rewrite deliver_pending by done.
  replace (pending (log (Call c (value r)) (set_errno (err r) w)) p)
    with (pending w p) by done.
  rewrite <- app_assoc. f_equal.
  replace (Z.to_nat (off + value r))
    with (Z.to_nat off + Z.to_nat (value r))%nat by lia.
  rewrite <- drop_drop.
  replace (Z.to_nat (size - (off + value r)))
    with (Z.to_nat (size - off) - Z.to_nat (value r))%nat by lia.
  unfold data. apply chunk_then_rest. lia.
Qed.
Lemma pending_set_inbox fd bs w : pending (set_inbox fd bs w) fd = bs.
Proof. unfold pending, set_inbox. simpl. by rewrite lookup_insert_eq. Qed.

(** The buffer after one chunk of [k] bytes was stored at offset [o]. *)
Lemma store_chunk {A} (buffer got : list A) (o : nat) :
  (o + length got <= length buffer)%nat ->
  let b := take o buffer ++ got ++ drop (length got) (drop o buffer) in
  length b = length buffer /\
  take (o + length got) b = take o buffer ++ got /\
  forall n, (o + length got <= n)%nat -> drop n b = drop n buffer.
Proof.
  intros Hlen b. unfold b. rewrite drop_drop.
  split; [|split].
  - rewrite !length_app, length_take, length_drop. lia.
  - rewrite app_assoc. apply take_app_length'.
    rewrite length_app, length_take. lia.
  - intros n Hn. rewrite app_assoc.
    rewrite drop_app_ge by (rewrite length_app, length_take; lia).
    rewrite length_app, length_take, drop_drop. f_equal. lia.
Qed.

(** While every attempt makes progress and the bytes are there,
    [recv_all] runs to completion: it returns, its attempts add up to
    [size - off] bytes, and these are the head of the queue, stored in the
    buffer from [off] on; the rest of the buffer is untouched. *)
Lemma recv_all_from_ok size fuel :
  recvs_progress E -> 0 <= size < 2 ^ 64 ->
  forall buffer off w,
    0 <= off <= size ->
    size <= Z.of_nat (length buffer) ->
    size - off <= Z.of_nat (length (pending w (socket.sock this))) ->
    (Z.to_nat (size - off) < fuel)%nat ->
    exists buffer' w' t,
      socket.recv_all_from E fuel this buffer size off w
        = (Ret tt, buffer', w') /\
      trace w' = trace w ++ t /\
      Forall (fun e => is_attempt e = true) t /\
      transferred t = size - off /\
      buffer' = take (Z.to_nat off) buffer ++
                take (Z.to_nat (size - off)) (pending w (socket.sock this)) ++
                drop (Z.to_nat size) buffer /\
      pending w' (socket.sock this) =
        drop (Z.to_nat (size - off)) (pending w (socket.sock this)).
Proof.
  intros HE Hsize.
  induction fuel as [|fuel IH]; intros buffer off w Hoff Hbuf Hq Hfuel; [lia|].
  simpl. destruct (Z.eqb_spec off size) as [->|Hne].
  { exists buffer, w, []. rewrite app_nil_r, Z.sub_diag. simpl.
    repeat split; try done. by rewrite take_drop. }
  pose proof (recv_step E this (drop (Z.to_nat off) buffer)
                (to_size_t (size - off)) w) as Hs.
  cbv zeta in Hs. rewrite Hs. clear Hs.
  rewrite to_size_t_small by lia.
  set (fd := socket.sock this) in *.
  set (c := c_recv _ _ _). set (r := answer E w c).
  pose proof (HE w fd (size - off) MSG_NOSIGNAL) as Hr.
  fold c r in Hr. specialize (Hr ltac:(lia)).
  destruct Hr as [Hr1 Hr2].
  { intros Hnil. rewrite Hnil in Hq. simpl in Hq. lia. }
  assert (to_int (value r) = value r) as Hint.
  { apply to_int_small. unfold INT_MIN, INT_MAX in *. lia. }
  rewrite Hint.
  destruct (Z.leb_spec (value r) 0) as [?|_]; [lia|].
  destruct (Z.ltb_spec 0 (value r)) as [_|?]; [|lia].
  rewrite Z.min_l by lia.
  set (k := Z.to_nat (value r)). set (o := Z.to_nat off).
  set (got := take k (pending w fd)).
  assert (length got = k) as Hgot.
  { unfold got. rewrite length_take. lia. }
  destruct (store_chunk buffer got o) as (Hlen & Htake & Hdrop); [lia|].
  cbv zeta in Hlen, Htake, Hdrop.
  set (b2 := take o buffer ++ got ++ drop (length got) (drop o buffer)) in *.
  set (w2 := set_inbox fd (drop k (pending w fd)) _).
  destruct (IH b2 (to_size_t (off + value r)) w2)
    as (buffer' & w' & t & Hrun & Ht & Hall & Hsum & Hb & Hrest).
  { rewrite to_size_t_small by lia. lia. }
  { lia. }
  { rewrite to_size_t_small by lia. unfold w2.
    rewrite pending_set_inbox, length_drop. lia. }
  { rewrite to_size_t_small by lia. lia. }
  rewrite to_size_t_small in Hsum, Hb, Hrest by lia.
  exists buffer', w', (Call c (value r) :: t). split; [done|].
  split.
  { rewrite Ht. unfold w2. simpl. by rewrite <- app_assoc. }
  split; [by constructor|].
  split.
  { simpl. rewrite Hint, Hsum. lia. }
  replace (Z.to_nat (off + value r)) with (o + length got)%nat in Hb by lia.
  replace (Z.to_nat (size - (off + value r)))
    with (Z.to_nat (size - off) - k)%nat in Hb, Hrest by lia.
  unfold w2 in Hb, Hrest. rewrite pending_set_inbox in Hb, Hrest.
  split.
  - rewrite Hb, Htake, Hdrop by lia. rewrite <- app_assoc. f_equal.
    rewrite app_assoc. f_equal. unfold got.
    rewrite take_take_drop. f_equal. lia.
  - rewrite Hrest, drop_drop. f_equal. lia.
Qed.
End Loops.

(** ** Concrete runs *)

Example htons_abcd : htons 43981 = 52651.
Proof. reflexivity. Qed.

Lemma chunked_sends chunk : sends_progress (chunked chunk).
Proof.
  intros w fd data len flags Hlen. unfold chunked, INT_MAX.
  cbn [answer value]. lia.
Qed.

Lemma chunked_recvs chunk : recvs_progress (chunked chunk).
Proof.
  intros w fd len flags Hlen Hq. unfold chunked, INT_MAX.
  cbn [answer value].
  destruct (pending w fd); [done|]. cbn [length]. lia.
Qed.

Example ping_is_sent :
  fst (socket.send_all (chunked 3) 5 (socket.of_fd 3) ping 4 wired) = Ret tt
  /\ pending (snd (socket.send_all (chunked 3) 5 (socket.of_fd 3) ping 4 wired)) 4
     = ping.
Proof. split; vm_compute; reflexivity. Qed.

Example ping_send_trace :
  trace (snd (socket.send_all (chunked 3) 5 (socket.of_fd 3) ping 4 wired)) =
  [Call (c_send 3 ping 4 MSG_NOSIGNAL) 3;
   Call (c_send 3 [Byte.x67] 1 MSG_NOSIGNAL) 1].
Proof. vm_compute. reflexivity. Qed.

Example broken_pipe :
  fst (socket.send_all breaking 5 (socket.of_fd 3) ping 4 wired)
  = Throw (NetworkException 32).
Proof. vm_compute. reflexivity. Qed.

(** ** Destruction of a stream *)

Lemma call_trace E c w :
  trace (snd (os.call E c w)) = trace w ++ [Call c (value (answer E w c))].
Proof. done. Qed.

(** The stream built over descriptor 3 and destroyed in a world where every
    call returns 0: the log it leaves. *)
Example stream_destroy_log :
  new_events idle
    (snd (socket_stream.destroy quiet
            (fst (socket_stream.make 0 (socket.of_fd 3))) idle)) =
  [Call (c_shutdown 3 SHUT_RDWR) 0; IostreamTeardown; FilebufTeardown 3;
   Call (c_shutdown 3 SHUT_RDWR) 0; Call (c_close 3) 0].
Proof. reflexivity. Qed.

(** C1, as stated, fails: in the destruction of the stream over descriptor 3
    the buffering adapter's teardown does not come before every shutdown of
    the descriptor.  The shutdown issued by [close()] in the destructor body
    is event 0, the adapter's teardown is event 2. *)
Lemma stream_teardown_not_before_shutdown :
  ~ precedes is_buffer_teardown (is_shutdown_of 3)
      (new_events idle
         (snd (socket_stream.destroy quiet
                 (fst (socket_stream.make 0 (socket.of_fd 3))) idle))).
Proof.
  rewrite stream_destroy_log. intros H.
  specialize (H 2%nat 0%nat (FilebufTeardown 3) (Call (c_shutdown 3 SHUT_RDWR) 0)
                eq_refl eq_refl eq_refl eq_refl).
  lia.
Qed.

(** C1, amended: destroying a stream first shuts the descriptor down (the
    [close()] of the destructor body) and only then tears down the stream
    object and the buffering adapter, in this order.  So the shutdown
    forced by [close()] comes strictly before the adapter's teardown.  What
    follows the adapter's teardown is left open here. *)
Theorem stream_destroy_shutdown_first E (ss : socket_stream.t) (w : world) :
  let fd := socket.sock (socket_stream.sock ss) in
  exists r1 rest,
    new_events w (snd (socket_stream.destroy E ss w)) =
      Call (c_shutdown fd SHUT_RDWR) r1
      :: IostreamTeardown
      :: FilebufTeardown (socket_stream.fb_fd (socket_stream.fbuf ss))
      :: rest.
Proof.
  intros fd. unfold socket_stream.destroy, socket.close, socket.destroy.
  unfold socket_ops.close, socket_ops.shutdown. fold fd.
  set (w1 := snd (os.call E (c_shutdown fd SHUT_RDWR) w)).
  set (w3 := log _ (log IostreamTeardown w1)).
  exists (value (answer E w (c_shutdown fd SHUT_RDWR))).
  destruct (0 <=? fd); eexists; apply new_events_app; cbn [snd];
    rewrite ?call_trace; simpl; rewrite <- ?app_assoc; simpl; reflexivity.
Qed.

(** ** Ownership *)

(** C6: a move leaves the sentinel -1 in the source and the descriptor in
    the destination, so a descriptor the source owned is owned by the
    destination and by the destination only; destroying the moved-from
    handle leaves the world as it was (no call is made) and the handle
    unchanged. *)
Theorem move_transfers_ownership E (indeterminate : Z) (rhs : socket.t)
    (w : world) :
  let dst := fst (socket.move indeterminate rhs) in
  let src := snd (socket.move indeterminate rhs) in
  socket.sock src = -1 /\
  socket.sock dst = socket.sock rhs /\
  (forall fd, owns rhs fd -> owns dst fd /\ ~ owns src fd) /\
  (forall fd, ~ owns src fd) /\
  socket.destroy E src w = (src, w).
Proof.
  intros dst src. unfold owns.
  split; [done|]. split; [done|]. split; [|split; [|done]].
  - intros fd [Hfd Hvalid]. split; [done|].
    intros [Hsrc _]. simpl in Hsrc. lia.
  - intros fd [Hsrc Hvalid]. simpl in Hsrc. lia.
Qed.

(** ** send_all on nothing *)

(** C7: [send_all] with [size = 0] returns at once, whatever the buffer: no
    error, and the world (its log included) is the one it started in. *)
Theorem send_all_zero E (fuel : nat) (this : socket.t) (buffer : list byte)
    (w : world) :
  socket.send_all E fuel this buffer 0 w = (Ret tt, w)
  /\ new_events w (snd (socket.send_all E fuel this buffer 0 w)) = [].
Proof.
  assert (socket.send_all E fuel this buffer 0 w = (Ret tt, w)) as H.
  { by destruct fuel. }
  split; [done|]. rewrite H. apply new_events_app. by rewrite app_nil_r.
Qed.

(** ** close *)

(** C8: [close()] issues exactly one call, a shutdown of both directions on
    the handle's descriptor; the handle is unchanged (a descriptor that was
    not the sentinel is still not the sentinel), and no close of the
    descriptor is among the calls. *)
Theorem close_is_shutdown_only E (this : socket.t) (w : world) :
  let this' := fst (socket.close E this w) in
  let w' := snd (socket.close E this w) in
  this' = this /\
  (exists r,
     new_events w w' = [Call (c_shutdown (socket.sock this) SHUT_RDWR) r]) /\
  Forall (fun e => is_os_close e = false) (new_events w w').
Proof.
  intros this' w'.
  assert (new_events w w' =
          [Call (c_shutdown (socket.sock this) SHUT_RDWR)
             (value (answer E w (c_shutdown (socket.sock this) SHUT_RDWR)))])
    as H by (by apply new_events_app).
  split; [done|]. split; [eauto|]. rewrite H. by repeat constructor.
Qed.

(** ** connect and accept *)

(** C9: when [connect] throws, whether at the resolution of the host name or
    at the connection itself, the handle already remembers the requested
    port, and its descriptor is the one it had. *)
Theorem connect_failure_keeps_port E (hostname : string) (port : Z)
    (this this' : socket.t) (w w' : world) (e : network_exception) :
  socket.connect E hostname port this w = (Throw e, this', w') ->
  socket.portno this' = port /\ socket.sock this' = socket.sock this.
Proof.
  unfold socket.connect, os.gethostbyname.
  destruct (hosts E w hostname) as [server|]; cbv zeta.
  - destruct (os.call E _ _) as [r w2].
    destruct (r <? 0); intros H; by inversion H.
  - intros H; by inversion H.
Qed.

Lemma connect_failure_keeps_port_witness :
  socket.portno (socket.set_portno 43981 (socket.of_fd 3)) = 43981 /\
  socket.sock (socket.set_portno 43981 (socket.of_fd 3))
    = socket.sock (socket.of_fd 3).
Proof.
  apply (connect_failure_keeps_port quiet "nowhere" 43981 (socket.of_fd 3)
           (socket.set_portno 43981 (socket.of_fd 3)) idle
           (snd (os.gethostbyname quiet "nowhere" idle))
           (NetworkException 0)).
  reflexivity.
Defined.

(** C10: a handle returned by [accept] remembers port 0, whatever port the
    listening handle remembers. *)
Theorem accept_port_zero E (this client : socket.t) (w w' : world) :
  socket.accept E this w = (Ret client, w') ->
  socket.portno client = 0.
Proof.
  unfold socket.accept. destruct (os.call E _ _) as [fd w1].
  destruct (fd <? 0); intros H; by inversion H.
Qed.

Lemma accept_port_zero_witness :
  let listening := socket.listen (chunked 1) 43981 (socket.of_fd 3) idle in
  fst (fst listening) = Ret tt /\
  socket.portno (snd (fst listening)) = 43981 /\
  fst (socket.accept (chunked 1) (snd (fst listening)) (snd listening))
    = Ret (socket.of_fd 7) /\
  socket.portno (socket.of_fd 7) = 0.
Proof.
  split; [reflexivity|]. split; [reflexivity|]. split; [reflexivity|].
  apply (accept_port_zero (chunked 1)
           (snd (fst (socket.listen (chunked 1) 43981 (socket.of_fd 3) idle)))
           (socket.of_fd 7)
           (snd (socket.listen (chunked 1) 43981 (socket.of_fd 3) idle))
           (snd (socket.accept (chunked 1)
                   (snd (fst (socket.listen (chunked 1) 43981
                                (socket.of_fd 3) idle)))
                   (snd (socket.listen (chunked 1) 43981
                           (socket.of_fd 3) idle))))).
  reflexivity.
Defined.

(** ** Single attempts *)

(** C3: a single send and a single receive throw exactly when the call
    returned a value that is zero or negative, the exception carrying the
    errno the call left, and otherwise return the positive count the call
    returned.  The value of the call is one that fits the [int] it is
    handed back in, as every count the system returns does. *)
Theorem attempt_throws_iff_not_positive E (this : socket.t)
    (buffer : list byte) (size : Z) (w : world) :
  let rs := answer E w (c_send (socket.sock this)
                          (take (Z.to_nat size) buffer) size MSG_NOSIGNAL) in
  let rr := answer E w (c_recv (socket.sock this) size MSG_NOSIGNAL) in
  INT_MIN <= value rs <= INT_MAX ->
  INT_MIN <= value rr <= INT_MAX ->
  fst (socket.send E this buffer size w) =
    (if value rs <=? 0 then Throw (NetworkException (err rs))
     else Ret (value rs)) /\
  fst (fst (socket.recv E this buffer size w)) =
    (if value rr <=? 0 then Throw (NetworkException (err rr))
     else Ret (value rr)).
Proof.
  intros rs rr Hs Hr.
  pose proof (send_step E this buffer size w) as Hsend.
  pose proof (recv_step E this buffer size w) as Hrecv.
  cbv zeta in Hsend, Hrecv. fold rs in Hsend. fold rr in Hrecv.
  rewrite Hsend, Hrecv. cbn [fst].
  by rewrite !to_int_small.
Qed.

Lemma attempt_throws_iff_not_positive_witness :
  fst (socket.send breaking (socket.of_fd 3) ping 4 wired) = Ret 2 /\
  fst (fst (socket.recv breaking (socket.of_fd 3) blank 4
              (snd (socket.send breaking (socket.of_fd 3) ping 4 wired))))
    = Throw (NetworkException 32) /\
  fst (socket.send quiet (socket.of_fd 3) ping 4 wired)
    = Throw (NetworkException 0).
Proof.
  split; [|split].
  - apply (attempt_throws_iff_not_positive breaking (socket.of_fd 3) ping 4
             wired); vm_compute; split; discriminate.
  - apply (attempt_throws_iff_not_positive breaking (socket.of_fd 3) blank 4
             (snd (socket.send breaking (socket.of_fd 3) ping 4 wired)));
      vm_compute; split; discriminate.
  - apply (attempt_throws_iff_not_positive quiet (socket.of_fd 3) ping 4
             wired); vm_compute; split; discriminate.
Defined.

(** ** The loops: failure *)



(** ** The loops: completion *)

(** C5: for a [size] that is a [size_t], while every attempt moves at least
    one byte and at most what is left, [send_all] and [recv_all] return
    (any bound on the iterations above [size] is enough, for they take at
    most [size] iterations).  The attempts of [send_all] add up to [size]
    bytes, queued at the peer in the order of the buffer; the attempts of
    [recv_all] add up to [size] bytes, which fill the first [size] bytes of
    the buffer from the head of the queue and leave the rest of both
    alone. *)
Theorem transfer_completes E (this : socket.t) (buffer : list byte)
    (size : Z) (fuel : nat) (w : world) :
  0 <= size < 2 ^ 64 ->
  (Z.to_nat size < fuel)%nat ->
  (sends_progress E ->
   exists w',
     socket.send_all E fuel this buffer size w = (Ret tt, w') /\
     transferred (new_events w w') = size /\
     forall p, peer w !! socket.sock this = Some p ->
       pending w' p = pending w p ++ take (Z.to_nat size) buffer) /\
  (recvs_progress E ->
   size <= Z.of_nat (length buffer) ->
   size <= Z.of_nat (length (pending w (socket.sock this))) ->
   exists buffer' w',
     socket.recv_all E fuel this buffer size w = (Ret tt, buffer', w') /\
     transferred (new_events w w') = size /\
     buffer' = take (Z.to_nat size) (pending w (socket.sock this)) ++
               drop (Z.to_nat size) buffer /\
     pending w' (socket.sock this) =
       drop (Z.to_nat size) (pending w (socket.sock this))).
Proof.
  intros Hsize Hfuel. split.
  - intros HE.
    destruct (send_all_from_ok E this buffer size fuel HE Hsize 0 w)
      as (w' & t & Hrun & Ht & _ & Hsum & _ & Hq); [lia | lia |].
    exists w'. split; [done|]. rewrite (new_events_app _ _ _ Ht).
    split; [lia|]. intros p Hp. rewrite (Hq p Hp), Z.sub_0_r. done.
  - intros HE Hbuf Hqueue.
    destruct (recv_all_from_ok E this size fuel HE Hsize buffer 0 w)
      as (buffer' & w' & t & Hrun & Ht & _ & Hsum & Hb & Hq);
      [lia | lia | lia | lia |].
    exists buffer', w'. split; [done|]. rewrite (new_events_app _ _ _ Ht).
    rewrite Z.sub_0_r in Hb, Hq. split; [lia|]. by split.
Qed.

Lemma transfer_completes_witness :
  (exists w',
     socket.send_all (chunked 3) 5 (socket.of_fd 3) ping 4 wired
       = (Ret tt, w') /\
     transferred (new_events wired w') = 4 /\
     pending w' 4 = ping) /\
  (exists buffer' w',
     socket.recv_all (chunked 3) 5 (socket.of_fd 4) blank 4
       (set_inbox 4 ping wired) = (Ret tt, buffer', w') /\
     transferred (new_events (set_inbox 4 ping wired) w') = 4 /\
     buffer' = ping /\
     pending w' 4 = []).
Proof.
  split.
  - destruct (transfer_completes (chunked 3) (socket.of_fd 3) ping 4 5 wired)
      as [Hsend _]; [lia | lia |].
    destruct (Hsend (chunked_sends 3)) as (w' & Hrun & Hsum & Hq).
    exists w'. split; [exact Hrun|]. split; [exact Hsum|].
    apply (Hq 4). reflexivity.
  - destruct (transfer_completes (chunked 3) (socket.of_fd 4) blank 4 5
                (set_inbox 4 ping wired)) as [_ Hrecv]; [lia | lia |].
    destruct (Hrecv (chunked_recvs 3)) as (b & w' & Hrun & Hsum & Hb & Hq).
    + simpl. lia.
    + vm_compute. discriminate.
    + exists b, w'. split; [exact Hrun|]. split; [exact Hsum|].
      split; [exact Hb | exact Hq].
Defined.

(** ** Round trip *)

(** C2: over a connected pair with nothing queued yet, for every
    [size > 0] and every buffer of [size] bytes, [send_all] on one handle
    followed by [recv_all] of [size] bytes on its peer both return, and the
    receiving buffer then holds exactly the bytes that were sent, however
    the transport cuts the transfer into partial sends and receives. *)
Theorem send_all_recv_all_roundtrip E (a b : socket.t)
    (data buffer : list byte) (size : Z) (fuel : nat) (w : world) :
  sends_progress E -> recvs_progress E ->
  0 < size < 2 ^ 64 ->
  Z.of_nat (length data) = size ->
  Z.of_nat (length buffer) = size ->
  peer w !! socket.sock a = Some (socket.sock b) ->
  pending w (socket.sock b) = [] ->
  (Z.to_nat size < fuel)%nat ->
  exists w1 w2,
    socket.send_all E fuel a data size w = (Ret tt, w1) /\
    socket.recv_all E fuel b buffer size w1 = (Ret tt, data, w2).
Proof.
  intros Hs Hr Hsize Hdata Hbuf Hpeer Hempty Hfuel.
  destruct (send_all_from_ok E a data size fuel Hs ltac:(lia) 0 w)
    as (w1 & t1 & Hrun1 & _ & _ & _ & _ & Hq1); [lia | lia |].
  specialize (Hq1 _ Hpeer).
  rewrite Hempty, Z.sub_0_r in Hq1.
  change (Z.to_nat 0) with 0%nat in Hq1. rewrite drop_0, app_nil_l in Hq1.
  rewrite take_ge in Hq1 by lia.
  destruct (recv_all_from_ok E b size fuel Hr ltac:(lia) buffer 0 w1)
    as (buffer' & w2 & t2 & Hrun2 & _ & _ & _ & Hb & _);
    [lia | lia | rewrite Hq1; lia | lia |].
  exists w1, w2. split; [done|].
  unfold socket.recv_all. rewrite Hrun2. f_equal. f_equal.
  rewrite Hb, Hq1, Z.sub_0_r.
  change (Z.to_nat 0) with 0%nat. rewrite take_0, app_nil_l.
  rewrite take_ge, drop_ge by lia. by rewrite app_nil_r.
Qed.

Lemma send_all_recv_all_roundtrip_witness :
  exists w1 w2,
    socket.send_all (chunked 3) 5 (socket.of_fd 3) ping 4 wired
      = (Ret tt, w1) /\
    socket.recv_all (chunked 3) 5 (socket.of_fd 4) blank 4 w1
      = (Ret tt, ping, w2).
Proof.
  apply (send_all_recv_all_roundtrip (chunked 3) (socket.of_fd 3)
           (socket.of_fd 4) ping blank 4 5 wired).
  - apply chunked_sends.
  - apply chunked_recvs.
  - lia.
  - reflexivity.
  - reflexivity.
  - reflexivity.
  - reflexivity.
  - simpl. lia.
Defined.

(** * Further properties of the code *)

(** ** Creation and release of a handle *)

(** X1: a handle that [socket()] returns holds the non-negative descriptor
    the system handed out and remembers port 0, and making it took exactly
    one call, [socket(AF_INET, SOCK_STREAM, 0)]. *)
Theorem created_handle_is_valid E (w w' : world) (s : socket.t) :
  socket.create E w = (Ret s, w') ->
  0 <= socket.sock s /\ socket.portno s = 0 /\
  new_events w w' = [Call (c_socket AF_INET SOCK_STREAM 0) (socket.sock s)].
Proof.
  unfold socket.create, socket_ops.create_inet, os.call.
  destruct (Z.ltb_spec (value (answer E w (c_socket AF_INET SOCK_STREAM 0))) 0)
    as [Hlt|Hge]; intros H; inversion H; subst.
  split; [done|]. split; [done|]. by apply new_events_app.
Qed.

Lemma created_handle_is_valid_witness :
  0 <= socket.sock (socket.Socket 0 0) /\
  socket.portno (socket.Socket 0 0) = 0 /\
  new_events idle (snd (socket.create quiet idle))
    = [Call (c_socket AF_INET SOCK_STREAM 0) (socket.sock (socket.Socket 0 0))].
Proof.
  apply (created_handle_is_valid quiet idle (snd (socket.create quiet idle))
           (socket.Socket 0 0)).
  reflexivity.
Defined.

(** X2: when the system refuses a descriptor, [socket()] throws the errno
    that call left, after that one call; no handle comes into being. *)
Theorem create_failure_throws_errno E (w : world) :
  value (answer E w (c_socket AF_INET SOCK_STREAM 0)) < 0 ->
  fst (socket.create E w)
    = Throw (NetworkException
               (err (answer E w (c_socket AF_INET SOCK_STREAM 0)))) /\
  length (new_events w (snd (socket.create E w))) = 1%nat.
Proof.
  intros Hneg. unfold socket.create, socket_ops.create_inet, os.call.
  destruct (Z.ltb_spec (value (answer E w (c_socket AF_INET SOCK_STREAM 0))) 0)
    as [Hlt|Hge]; [|lia].
  split; [done|]. cbn [snd].
  by erewrite new_events_app by (simpl; reflexivity).
Qed.

Lemma create_failure_throws_errno_witness :
  fst (socket.create refusing idle) = Throw (NetworkException 24) /\
  length (new_events idle (snd (socket.create refusing idle))) = 1%nat.
Proof. apply (create_failure_throws_errno refusing idle). reflexivity. Defined.

(** X3: a handle that [accept] returns holds the non-negative descriptor
    the system handed out for the connection; taking it was one [accept]
    call on the listening descriptor. *)
Theorem accepted_handle_is_valid E (this client : socket.t) (w w' : world) :
  socket.accept E this w = (Ret client, w') ->
  0 <= socket.sock client /\
  new_events w w' = [Call (c_accept (socket.sock this)) (socket.sock client)].
Proof.
  unfold socket.accept, os.call.
  destruct (Z.ltb_spec (value (answer E w (c_accept (socket.sock this)))) 0)
    as [Hlt|Hge]; intros H; inversion H; subst.
  split; [done|]. by apply new_events_app.
Qed.

Lemma accepted_handle_is_valid_witness :
  0 <= socket.sock (socket.of_fd 7) /\
  new_events idle (snd (socket.accept (chunked 1) (socket.of_fd 3) idle))
    = [Call (c_accept (socket.sock (socket.of_fd 3)))
         (socket.sock (socket.of_fd 7))].
Proof.
  apply (accepted_handle_is_valid (chunked 1) (socket.of_fd 3) (socket.of_fd 7)
           idle (snd (socket.accept (chunked 1) (socket.of_fd 3) idle))).
  reflexivity.
Defined.

(** X4: when the [accept] call fails, [accept] throws the errno it left and
    nothing else is called. *)
Theorem accept_failure_throws_errno E (this : socket.t) (w : world) :
  value (answer E w (c_accept (socket.sock this))) < 0 ->
  fst (socket.accept E this w)
    = Throw (NetworkException (err (answer E w (c_accept (socket.sock this)))))
  /\ length (new_events w (snd (socket.accept E this w))) = 1%nat.
Proof.
  intros Hneg. unfold socket.accept, os.call.
  destruct (Z.ltb_spec (value (answer E w (c_accept (socket.sock this)))) 0)
    as [Hlt|Hge]; [|lia].
  split; [done|]. cbn [snd].
  by erewrite new_events_app by (simpl; reflexivity).
Qed.

Lemma accept_failure_throws_errno_witness :
  fst (socket.accept refusing (socket.of_fd 3) idle)
    = Throw (NetworkException 11) /\
  length (new_events idle (snd (socket.accept refusing (socket.of_fd 3) idle)))
    = 1%nat.
Proof.
  apply (accept_failure_throws_errno refusing (socket.of_fd 3) idle).
  reflexivity.
Defined.

(** X5: destroying a handle with a valid descriptor shuts it down and then
    closes it, in this order and once each, whatever these two calls
    return. *)
Theorem destroy_releases_once E (this : socket.t) (w : world) :
  0 <= socket.sock this ->
  exists r1 r2,
    new_events w (snd (socket.destroy E this w)) =
      [Call (c_shutdown (socket.sock this) SHUT_RDWR) r1;
       Call (c_close (socket.sock this)) r2].
Proof.
  intros Hvalid.
  unfold socket.destroy, socket_ops.close, socket_ops.shutdown.
  destruct (Z.leb_spec 0 (socket.sock this)) as [Hle|Hgt]; [|lia].
  eexists _, _. apply new_events_app. cbn [snd].
  rewrite !call_trace. by rewrite <- app_assoc.
Qed.

Lemma destroy_releases_once_witness :
  exists r1 r2,
    new_events idle (snd (socket.destroy quiet (socket.of_fd 3) idle)) =
      [Call (c_shutdown 3 SHUT_RDWR) r1; Call (c_close 3) r2].
Proof. apply (destroy_releases_once quiet (socket.of_fd 3) idle). simpl. lia. Defined.

(** X6: after a move of a handle with a valid descriptor, destroying the two
    handles, in either order, closes the descriptor exactly once: the
    moved-from handle calls nothing, the destination shuts down and
    closes. *)
Theorem moved_pair_closes_once E (indeterminate : Z) (rhs : socket.t)
    (w : world) :
  0 <= socket.sock rhs ->
  let dst := fst (socket.move indeterminate rhs) in
  let src := snd (socket.move indeterminate rhs) in
  let fd := socket.sock rhs in
  (exists r1 r2,
     new_events w
       (snd (socket.destroy E dst (snd (socket.destroy E src w)))) =
       [Call (c_shutdown fd SHUT_RDWR) r1; Call (c_close fd) r2]) /\
  (exists r1 r2,
     new_events w
       (snd (socket.destroy E src (snd (socket.destroy E dst w)))) =
       [Call (c_shutdown fd SHUT_RDWR) r1; Call (c_close fd) r2]).
Proof.
  intros Hvalid dst src fd.
  assert (forall w0, exists r1 r2,
            new_events w0 (snd (socket.destroy E dst w0)) =
              [Call (c_shutdown fd SHUT_RDWR) r1; Call (c_close fd) r2]) as Hd.
  { intros w0. unfold socket.destroy, socket_ops.close, socket_ops.shutdown.
    change (socket.sock dst) with fd.
    destruct (Z.leb_spec 0 fd) as [Hle|Hgt]; [|unfold fd in *; lia].
    eexists _, _. apply new_events_app. cbn [snd].
    rewrite !call_trace. by rewrite <- app_assoc. }
  split; [apply (Hd w) | apply (Hd w)].
Qed.

Lemma moved_pair_closes_once_witness :
  exists r1 r2,
    new_events idle
      (snd (socket.destroy quiet (fst (socket.move 0 (socket.of_fd 3)))
              (snd (socket.destroy quiet
                      (snd (socket.move 0 (socket.of_fd 3))) idle)))) =
      [Call (c_shutdown 3 SHUT_RDWR) r1; Call (c_close 3) r2].
Proof.
  apply (moved_pair_closes_once quiet 0 (socket.of_fd 3) idle). simpl. lia.
Defined.

(** ** listen and connect *)

(** X7: when [listen] returns, the handle has bound the wildcard address
    with the port in network byte order and then marked the descriptor
    passive with a backlog of 5, both calls succeeding, in this order and
    nothing else; the handle remembers the port and keeps its
    descriptor. *)
Theorem listen_binds_then_listens E (port : Z) (this this' : socket.t)
    (w w' : world) :
  socket.listen E port this w = (Ret tt, this', w') ->
  this' = socket.set_portno port this /\
  exists rb rl,
    0 <= rb /\ 0 <= rl /\
    new_events w w' =
      [Call (c_bind (socket.sock this)
               (SockAddr AF_INET (htons port) INADDR_ANY)) rb;
       Call (c_listen (socket.sock this) 5) rl].
Proof.
  unfold socket.listen. cbn [socket.portno socket.sock socket.set_portno].
  destruct (os.call E (c_bind _ _) w) as [rb w1] eqn:Hb.
  destruct (Z.ltb_spec rb 0) as [Hlt|Hrb]; [intros H; by inversion H|].
  destruct (os.call E (c_listen _ _) w1) as [rl w2] eqn:Hl.
  destruct (Z.ltb_spec rl 0) as [Hlt|Hrl]; intros H; inversion H; subst.
  split; [done|]. exists rb, rl. split; [done|]. split; [done|].
  apply new_events_app.
  unfold os.call in Hb, Hl. inversion Hb; subst. inversion Hl; subst.
  simpl. by rewrite <- app_assoc.
Qed.

Lemma listen_binds_then_listens_witness :
  socket.set_portno 43981 (socket.of_fd 3)
    = socket.set_portno 43981 (socket.of_fd 3) /\
  exists rb rl,
    0 <= rb /\ 0 <= rl /\
    new_events idle (snd (socket.listen quiet 43981 (socket.of_fd 3) idle)) =
      [Call (c_bind (socket.sock (socket.of_fd 3))
               (SockAddr AF_INET (htons 43981) INADDR_ANY)) rb;
       Call (c_listen (socket.sock (socket.of_fd 3)) 5) rl].
Proof.
  apply (listen_binds_then_listens quiet 43981 (socket.of_fd 3)
           (socket.set_portno 43981 (socket.of_fd 3)) idle
           (snd (socket.listen quiet 43981 (socket.of_fd 3) idle))).
  reflexivity.
Defined.

(** X8: when [bind] fails, [listen] throws the errno it left and never
    marks the descriptor passive: the bind is the only call made.  The
    handle remembers the port all the same. *)
Theorem listen_stops_at_failed_bind E (port : Z) (this : socket.t)
    (w : world) :
  let bind := c_bind (socket.sock this)
                (SockAddr AF_INET (htons port) INADDR_ANY) in
  value (answer E w bind) < 0 ->
  fst (fst (socket.listen E port this w))
    = Throw (NetworkException (err (answer E w bind))) /\
  snd (fst (socket.listen E port this w)) = socket.set_portno port this /\
  new_events w (snd (socket.listen E port this w))
    = [Call bind (value (answer E w bind))].
Proof.
  intros bind Hneg. unfold socket.listen, os.call.
  cbn [socket.portno socket.sock socket.set_portno]. fold bind.
  destruct (Z.ltb_spec (value (answer E w bind)) 0) as [Hlt|Hge]; [|lia].
  split; [done|]. split; [done|]. by apply new_events_app.
Qed.

Lemma listen_stops_at_failed_bind_witness :
  fst (fst (socket.listen refusing 43981 (socket.of_fd 3) idle))
    = Throw (NetworkException 98) /\
  snd (fst (socket.listen refusing 43981 (socket.of_fd 3) idle))
    = socket.set_portno 43981 (socket.of_fd 3) /\
  new_events idle (snd (socket.listen refusing 43981 (socket.of_fd 3) idle))
    = [Call (c_bind 3 (SockAddr AF_INET (htons 43981) INADDR_ANY)) (-1)].
Proof.
  apply (listen_stops_at_failed_bind refusing 43981 (socket.of_fd 3) idle).
  reflexivity.
Defined.

(** X9: when [connect] returns, the name resolved and exactly one
    connection was made after the resolution: on the handle's own
    descriptor, to the resolved address (the first [h_length] bytes of
    [h_addr] over a zeroed field), with the port in network byte order, and
    that call succeeded. *)
Theorem connect_resolves_then_connects E (hostname : string) (port : Z)
    (this this' : socket.t) (w w' : world) :
  socket.connect E hostname port this w = (Ret tt, this', w') ->
  this' = socket.set_portno port this /\
  exists server r,
    hosts E w hostname = Some server /\ 0 <= r /\
    new_events w w' =
      [Call (c_gethostbyname hostname) 1;
       Call (c_connect (socket.sock this)
               (SockAddr AF_INET (htons port)
                  (memcpy [Byte.x00; Byte.x00; Byte.x00; Byte.x00]
                     (h_addr server) (h_length server)))) r].
Proof.
  unfold socket.connect, os.gethostbyname.
  cbn [socket.portno socket.sock socket.set_portno].
  destruct (hosts E w hostname) as [server|]; [|intros H; by inversion H].
  destruct (os.call E (c_connect _ _) _) as [r w2] eqn:Hc.
  destruct (Z.ltb_spec r 0) as [Hlt|Hr]; intros H; inversion H; subst.
  split; [done|]. exists server, r. split; [done|]. split; [done|].
  apply new_events_app. unfold os.call in Hc. inversion Hc; subst.
  simpl. by rewrite <- app_assoc.
Qed.

Lemma connect_resolves_then_connects_witness :
  socket.set_portno 43981 (socket.of_fd 3)
    = socket.set_portno 43981 (socket.of_fd 3) /\
  exists server r,
    hosts (chunked 1) idle "localhost" = Some server /\ 0 <= r /\
    new_events idle
      (snd (socket.connect (chunked 1) "localhost" 43981 (socket.of_fd 3) idle))
    = [Call (c_gethostbyname "localhost") 1;
       Call (c_connect (socket.sock (socket.of_fd 3))
               (SockAddr AF_INET (htons 43981)
                  (memcpy [Byte.x00; Byte.x00; Byte.x00; Byte.x00]
                     (h_addr server) (h_length server)))) r].
Proof.
  apply (connect_resolves_then_connects (chunked 1) "localhost" 43981
           (socket.of_fd 3) (socket.set_portno 43981 (socket.of_fd 3)) idle
           (snd (socket.connect (chunked 1) "localhost" 43981
                   (socket.of_fd 3) idle))).
  reflexivity.
Defined.

(** X10: when the host name does not resolve, [connect] throws the errno
    found after the lookup and attempts no connection: the lookup is the
    only call made. *)
Theorem connect_unresolved_makes_no_connection E (hostname : string)
    (port : Z) (this : socket.t) (w : world) :
  hosts E w hostname = None ->
  fst (fst (socket.connect E hostname port this w))
    = Throw (NetworkException (err (answer E w (c_gethostbyname hostname))))
  /\ new_events w (snd (socket.connect E hostname port this w))
     = [Call (c_gethostbyname hostname) 0].
Proof.
  intros Hnone. unfold socket.connect, os.gethostbyname. rewrite Hnone.
  split; [done|]. by apply new_events_app.
Qed.

Lemma connect_unresolved_makes_no_connection_witness :
  fst (fst (socket.connect quiet "nowhere" 43981 (socket.of_fd 3) idle))
    = Throw (NetworkException 0) /\
  new_events idle
    (snd (socket.connect quiet "nowhere" 43981 (socket.of_fd 3) idle))
  = [Call (c_gethostbyname "nowhere") 0].
Proof.
  apply (connect_unresolved_makes_no_connection quiet "nowhere" 43981
           (socket.of_fd 3) idle).
  reflexivity.
Defined.

(** ** Equality of handles *)

(** X11: equality across a move.  The destination of a move holds the
    descriptor the source held before it, so it compares with any other
    handle as the source did before the move; the destination and the
    moved-from source compare equal only when that descriptor was already
    the sentinel -1; and any two moved-from handles compare equal, though
    neither holds a descriptor. *)
Theorem equality_across_move (a b other : socket.t) (i j : Z) :
  let dst := fst (socket.move i a) in
  let src := snd (socket.move i a) in
  socket.eqb dst other = socket.eqb a other /\
  (socket.eqb dst src = true <-> socket.sock a = -1) /\
  socket.eqb src (snd (socket.move j b)) = true.
Proof.
  intros dst src. unfold socket.eqb.
  cbn [dst src socket.sock socket.move fst snd socket.set_sock].
  split; [done|]. split; [|done].
  destruct (Z.eqb_spec (socket.sock a) (-1)); split; intros; congruence.
Qed.

Example moved_to_differs_from_moved_from :
  socket.eqb (fst (socket.move 0 (socket.of_fd 3)))
             (snd (socket.move 0 (socket.of_fd 3))) = false.
Proof. reflexivity. Qed.

(** ** recv_all on nothing *)

(** X12: [recv_all] with [size = 0] returns at once: no error, no call, the
    buffer and the queues as they were; and so does [read_alloc], handing
    back the block it allocated. *)
Theorem recv_all_zero E (fuel : nat) (this : socket.t) (buffer : list byte)
    (w : world) :
  socket.recv_all E fuel this buffer 0 w = (Ret tt, buffer, w) /\
  socket.read_alloc E fuel buffer this 0 w = (Ret buffer, w).
Proof.
  assert (socket.recv_all E fuel this buffer 0 w = (Ret tt, buffer, w)) as H
    by (by destruct fuel).
  split; [done|]. unfold socket.read_alloc.
  change (to_size_t 0) with 0. by rewrite H.
Qed.

(** ** Construction of a stream *)

(** X13: a stream takes the descriptor over from the handle it is built
    from: the stream's handle holds it, the buffering adapter is opened on
    that same descriptor for reading and writing and the stream object reads
    and writes through it, while the handle passed in is left with the
    sentinel, so that its destruction calls nothing.  Destroying the stream
    then works on that one descriptor throughout. *)
Theorem stream_takes_descriptor_over E (indeterminate : Z)
    (_sock : socket.t) (w : world) :
  let ss := fst (socket_stream.make indeterminate _sock) in
  let rest := snd (socket_stream.make indeterminate _sock) in
  let fd := socket.sock _sock in
  socket.sock (socket_stream.sock ss) = fd /\
  socket_stream.fbuf ss = socket_stream.Filebuf fd true true /\
  socket_stream.rdbuf (socket_stream.stream ss) = fd /\
  socket.sock rest = -1 /\
  socket.destroy E rest w = (rest, w) /\
  exists r1 r2 r3,
    new_events w (snd (socket_stream.destroy E ss w)) =
      Call (c_shutdown fd SHUT_RDWR) r1
      :: IostreamTeardown
      :: FilebufTeardown fd
      :: (if 0 <=? fd
          then [Call (c_shutdown fd SHUT_RDWR) r2; Call (c_close fd) r3]
          else []).
Proof.
  intros ss rest fd. repeat (split; [done|]).
  unfold socket_stream.destroy, socket.close, socket.destroy.
  unfold socket_ops.close, socket_ops.shutdown.
  change (socket.sock (socket_stream.sock ss)) with fd.
  change (socket_stream.fb_fd (socket_stream.fbuf ss)) with fd.
  eexists _, _, _. apply new_events_app.
  destruct (0 <=? fd); cbn [snd]; rewrite ?call_trace; simpl;
    by rewrite <- ?app_assoc.
Qed.

(** ** What the loops call, and what a failure leaves behind *)

Section LoopFrames.
Variable E : environment.
Variable this : socket.t.

(** Whatever the system answers, the only calls [send_all] makes are sends
    on the handle's descriptor, each offering a tail of the buffer. *)
Lemma send_all_from_calls buffer size fuel :
  forall off w,
    exists t,
      trace (snd (socket.send_all_from E fuel this buffer size off w))
        = trace w ++ t /\
      Forall (sends_tail_of (socket.sock this) buffer) t.
Proof.
  induction fuel as [|fuel IH]; intros off w; simpl.
  - exists []. rewrite app_nil_r. by destruct (off =? size).
  - destruct (off =? size); [exists []; by rewrite app_nil_r|].
    pose proof (send_step E this (drop (Z.to_nat off) buffer)
                  (to_size_t (size - off)) w) as Hs.
    cbv zeta in Hs. rewrite Hs. clear Hs.
    set (c := c_send _ _ _ _). set (r := answer E w c).
    set (w2 := if 0 <? value r then _ else _).
    assert (trace w2 = trace w ++ [Call c (value r)]) as Ht.
    { unfold w2. destruct (0 <? value r); by rewrite ?deliver_trace. }
    assert (sends_tail_of (socket.sock this) buffer (Call c (value r))) as Hc.
    { by exists off, (to_size_t (size - off)), (value r). }
    destruct (to_int (value r) <=? 0).
    + exists [Call c (value r)]. split; [done|]. by repeat constructor.
    + destruct (IH (to_size_t (off + to_int (value r))) w2) as (t & Ht' & Hall).
      exists (Call c (value r) :: t). split; [|by constructor].
      rewrite Ht', Ht. by rewrite <- app_assoc.
Qed.

(** Whatever the system answers, the only calls [recv_all] makes are
    receives on the handle's descriptor. *)
Lemma recv_all_from_calls size fuel :
  forall buffer off w,
    exists t,
      trace (snd (socket.recv_all_from E fuel this buffer size off w))
        = trace w ++ t /\
      Forall (recvs_on (socket.sock this)) t.
Proof.
  induction fuel as [|fuel IH]; intros buffer off w; simpl.
  - exists []. rewrite app_nil_r. by destruct (off =? size).
  - destruct (off =? size); [exists []; by rewrite app_nil_r|].
    pose proof (recv_step E this (drop (Z.to_nat off) buffer)
                  (to_size_t (size - off)) w) as Hs.
    cbv zeta in Hs. rewrite Hs. clear Hs.
    set (c := c_recv _ _ _). set (r := answer E w c).
    set (w2 := if 0 <? value r then set_inbox _ _ _ else _).
    set (b2 := take (Z.to_nat off) buffer ++ _).
    assert (trace w2 = trace w ++ [Call c (value r)]) as Ht.
    { unfold w2. by destruct (0 <? value r). }
    assert (recvs_on (socket.sock this) (Call c (value r))) as Hc.
    { by exists (to_size_t (size - off)), (value r). }
    destruct (to_int (value r) <=? 0).
    + exists [Call c (value r)]. split; [done|]. by repeat constructor.
    + destruct (IH b2 (to_size_t (off + to_int (value r))) w2)
        as (t & Ht' & Hall).
      exists (Call c (value r) :: t). split; [|by constructor].
      rewrite Ht', Ht. by rewrite <- app_assoc.
Qed.

(** However [send_all] ends, what it queued at the peer is a prefix of the
    buffer, as long as the attempts reported. *)
Lemma send_all_from_prefix buffer size fuel :
  sends_bounded E -> 0 <= size < 2 ^ 64 ->
  forall off w res w',
    0 <= off <= size ->
    socket.send_all_from E fuel this buffer size off w = (res, w') ->
    exists k t,
      off <= k <= size /\
      (res = Ret tt -> k = size) /\
      trace w' = trace w ++ t /\
      transferred t = k - off /\
      peer w' = peer w /\
      forall p, peer w !! socket.sock this = Some p ->
        pending w' p =
        pending w p ++ take (Z.to_nat (k - off)) (drop (Z.to_nat off) buffer).
Proof.
  intros HE Hsize.
  induction fuel as [|fuel IH]; intros off w res w' Hoff Hrun; simpl in Hrun.
  - exists off, []. rewrite app_nil_r, Z.sub_diag.
    destruct (Z.eqb_spec off size); inversion Hrun; subst;
      repeat split; try done; try lia; intros; by rewrite app_nil_r.
  - destruct (Z.eqb_spec off size) as [->|Hne].
    { exists size, []. rewrite app_nil_r, Z.sub_diag. inversion Hrun; subst.
      repeat split; try done; try lia. intros; by rewrite app_nil_r. }
    pose proof (send_step E this (drop (Z.to_nat off) buffer)
                  (to_size_t (size - off)) w) as Hs.
    cbv zeta in Hs. rewrite Hs in Hrun. clear Hs.
    rewrite to_size_t_small in Hrun by lia.
    set (data := take (Z.to_nat (size - off)) (drop (Z.to_nat off) buffer))
      in *.
    set (c := c_send _ _ _ _) in *. set (r := answer E w c) in *.
    pose proof (HE w (socket.sock this) data (size - off) MSG_NOSIGNAL) as Hr.
    fold c r in Hr. specialize (Hr ltac:(lia)).
    assert (to_int (value r) = value r) as Hint.
    { apply to_int_small. unfold INT_MIN, INT_MAX in *. lia. }
    rewrite Hint in Hrun.
    destruct (Z.leb_spec (value r) 0) as [Hfail|Hpos].
    + destruct (Z.ltb_spec 0 (value r)) as [?|_]; [lia|].
      inversion Hrun; subst res w'.
      exists off, [Call c (value r)]. rewrite Z.sub_diag.
      split; [lia|]. split; [done|]. split; [done|].
      split; [simpl; rewrite Hint; lia|]. split; [done|].
      intros p _. by rewrite app_nil_r.
    + destruct (Z.ltb_spec 0 (value r)) as [_|?]; [|lia].
      set (w2 := deliver _ _ _) in *.
      apply IH in Hrun as (k & t & Hk & Hret & Ht & Hsum & Hpeer & Hq);
        [|rewrite to_size_t_small by lia; lia].
      rewrite to_size_t_small in Hk, Hsum, Hq by lia.
      exists k, (Call c (value r) :: t).
      split; [lia|]. split; [done|].
      split.
      { rewrite Ht. unfold w2. rewrite deliver_trace. simpl.
        by rewrite <- app_assoc. }
      split; [simpl; rewrite Hint, Hsum; lia|].
      split; [rewrite Hpeer; unfold w2; by rewrite deliver_peer|].
      intros p Hp. rewrite Hq by (unfold w2; by rewrite deliver_peer).
      unfold w2. rewrite deliver_pending by done.
      replace (pending (log (Call c (value r)) (set_errno (err r) w)) p)
        with (pending w p) by done.
      rewrite <- app_assoc. f_equal.
      replace (Z.to_nat (off + value r))
        with (Z.to_nat off + Z.to_nat (value r))%nat by lia.
      rewrite <- drop_drop. unfold data.
      rewrite take_take, Nat.min_l by lia.
      rewrite take_take_drop. f_equal. lia.
Qed.

(** However [recv_all] ends, the bytes it took from the queue are the bytes
    it stored at the head of the buffer, and nothing else in the buffer or
    in the queue changed. *)
Lemma recv_all_from_prefix size fuel :
  recvs_bounded E -> 0 <= size < 2 ^ 64 ->
  forall buffer off w res buffer' w',
    0 <= off <= size ->
    size <= Z.of_nat (length buffer) ->
    socket.recv_all_from E fuel this buffer size off w = (res, buffer', w') ->
    exists k,
      off <= k <= size /\
      (res = Ret tt -> k = size) /\
      k - off <= Z.of_nat (length (pending w (socket.sock this))) /\
      buffer' = take (Z.to_nat off) buffer ++
                take (Z.to_nat (k - off)) (pending w (socket.sock this)) ++
                drop (Z.to_nat k) buffer /\
      pending w' (socket.sock this) =
        drop (Z.to_nat (k - off)) (pending w (socket.sock this)).
Proof.
  intros HE Hsize.
  induction fuel as [|fuel IH]; intros buffer off w res buffer' w' Hoff Hbuf Hrun;
    simpl in Hrun.
  - exists off. rewrite Z.sub_diag.
    destruct (Z.eqb_spec off size); inversion Hrun; subst;
      repeat split; try done; try lia; simpl; by rewrite take_drop.
  - destruct (Z.eqb_spec off size) as [->|Hne].
    { exists size. rewrite Z.sub_diag. inversion Hrun; subst.
      repeat split; try done; try lia. simpl. by rewrite take_drop. }
    pose proof (recv_step E this (drop (Z.to_nat off) buffer)
                  (to_size_t (size - off)) w) as Hs.
    cbv zeta in Hs. rewrite Hs in Hrun. clear Hs.
    rewrite to_size_t_small in Hrun by lia.
    set (fd := socket.sock this) in *.
    set (c := c_recv _ _ _) in *. set (r := answer E w c) in *.
    pose proof (HE w fd (size - off) MSG_NOSIGNAL) as Hr.
    fold c r in Hr. specialize (Hr ltac:(lia)).
    assert (to_int (value r) = value r) as Hint.
    { apply to_int_small. unfold INT_MIN, INT_MAX in *. lia. }
    rewrite Hint in Hrun.
    destruct (Z.leb_spec (value r) 0) as [Hfail|Hpos].
    + destruct (Z.ltb_spec 0 (value r)) as [?|_]; [lia|].
      rewrite take_drop in Hrun. inversion Hrun; subst res buffer' w'.
      exists off. rewrite Z.sub_diag.
      split; [lia|]. split; [done|]. split; [lia|].
      split; [simpl; by rewrite take_drop | done].
    + destruct (Z.ltb_spec 0 (value r)) as [_|?]; [|lia].
      rewrite Z.min_l in Hrun by lia.
      set (k1 := Z.to_nat (value r)) in *. set (o := Z.to_nat off) in *.
      set (got := take k1 (pending w fd)) in *.
      assert (length got = k1) as Hgot.
      { unfold got. rewrite length_take. lia. }
      destruct (store_chunk buffer got o) as (Hlen & Htake & Hdrop); [lia|].
      cbv zeta in Hlen, Htake, Hdrop.
      set (b2 := take o buffer ++ got ++ drop (length got) (drop o buffer)) in *.
      set (w2 := set_inbox fd (drop k1 (pending w fd)) _) in *.
      apply IH in Hrun as (k & Hk & Hret & Havail & Hb & Hrest);
        [|rewrite to_size_t_small by lia; lia | lia].
      rewrite to_size_t_small in Hk, Havail, Hb, Hrest by lia.
      unfold w2 in Havail, Hb, Hrest.
      rewrite pending_set_inbox in Havail, Hb, Hrest.
      rewrite length_drop in Havail.
      exists k. split; [lia|]. split; [done|]. split; [lia|].
      replace (Z.to_nat (off + value r)) with (o + length got)%nat in Hb by lia.
      replace (Z.to_nat (k - (off + value r)))
        with (Z.to_nat (k - off) - k1)%nat in Hb, Hrest by lia.
      split.
      * rewrite Hb, Htake, Hdrop by lia. rewrite <- app_assoc. f_equal.
        rewrite app_assoc. f_equal. unfold got.
        rewrite take_take_drop. f_equal. lia.
      * rewrite Hrest, drop_drop. f_equal. lia.
Qed.

(** A log of attempts that all moved something has at most as many events
    as bytes were moved. *)
Lemma attempts_at_most_bytes (t : list event) :
  Forall (fun e => is_attempt e = true) t ->
  (forall (i : nat) e, t !! i = Some e -> attempt_failed e = false) ->
  Z.of_nat (length t) <= transferred t.
Proof.
  induction t as [|e t IH]; intros Hall Hok; [done|].
  inversion Hall as [|? ? He Hall']; subst.
  specialize (IH Hall' (fun i e' Hi => Hok (S i) e' Hi)).
  pose proof (Hok 0%nat e eq_refl) as Hfirst.
  unfold is_attempt in He. apply bool_decide_eq_true in He as [n Hn].
  unfold attempt_failed in Hfirst. rewrite Hn in Hfirst.
  cbn [transferred length]. rewrite Hn. simpl. lia.
Qed.
End LoopFrames.

Lemma flaky_sends : sends_bounded flaky.
Proof.
  intros w fd data len flags Hlen. unfold flaky, INT_MIN, INT_MAX.
  cbn [answer]. destruct (length (trace w) =? 0)%nat; cbn [value]; lia.
Qed.

Lemma flaky_recvs : recvs_bounded flaky.
Proof.
  intros w fd len flags Hlen. unfold flaky, INT_MIN, INT_MAX.
  cbn [answer]. destruct (length (trace w) =? 0)%nat; cbn [value]; lia.
Qed.

(** X14: whatever the system answers and however the loops end, [send_all]
    calls nothing but [send] on the handle's own descriptor, with
    MSG_NOSIGNAL and a tail of the caller's buffer, and [recv_all] nothing
    but [recv] on the handle's own descriptor, with MSG_NOSIGNAL. *)
Theorem loops_call_only_their_transfer E (this : socket.t)
    (buffer : list byte) (size : Z) (fuel : nat) (w : world) :
  Forall (sends_tail_of (socket.sock this) buffer)
    (new_events w (snd (socket.send_all E fuel this buffer size w))) /\
  Forall (recvs_on (socket.sock this))
    (new_events w (snd (socket.recv_all E fuel this buffer size w))).
Proof.
  split.
  - destruct (send_all_from_calls E this buffer size fuel 0 w) as (t & Ht & Hall).
    unfold socket.send_all. by rewrite (new_events_app _ _ _ Ht).
  - destruct (recv_all_from_calls E this size fuel buffer 0 w) as (t & Ht & Hall).
    unfold socket.recv_all. by rewrite (new_events_app _ _ _ Ht).
Qed.

(** X15: over a transport that never reports more than it was asked,
    however [send_all] ends (return, exception, or still running), the
    bytes it has queued at the peer are the first [k] bytes of the buffer,
    in order, for the [k <= size] its attempts reported; [k = size] when it
    returned. *)
Theorem send_all_leaves_a_prefix E (this : socket.t) (buffer : list byte)
    (size : Z) (fuel : nat) (w : world) (p : Z) :
  sends_bounded E ->
  0 <= size < 2 ^ 64 ->
  peer w !! socket.sock this = Some p ->
  let run := socket.send_all E fuel this buffer size w in
  exists k,
    0 <= k <= size /\
    (fst run = Ret tt -> k = size) /\
    transferred (new_events w (snd run)) = k /\
    pending (snd run) p = pending w p ++ take (Z.to_nat k) buffer.
Proof.
  intros HE Hsize Hp run. destruct run as [res w'] eqn:Hrun.
  unfold run, socket.send_all in Hrun.
  apply (send_all_from_prefix E this buffer size fuel HE Hsize) in Hrun
    as (k & t & Hk & Hret & Ht & Hsum & _ & Hq); [|lia].
  exists k. cbn [fst snd]. rewrite (new_events_app _ _ _ Ht).
  rewrite Z.sub_0_r in Hsum, Hq.
  split; [lia|]. split; [done|]. split; [done|]. by rewrite (Hq p Hp).
Qed.

Lemma send_all_leaves_a_prefix_witness :
  fst (socket.send_all flaky 5 (socket.of_fd 3) ping 4 wired)
    = Throw (NetworkException 104) /\
  exists k,
    0 <= k <= 4 /\
    (fst (socket.send_all flaky 5 (socket.of_fd 3) ping 4 wired) = Ret tt ->
     k = 4) /\
    transferred
      (new_events wired
         (snd (socket.send_all flaky 5 (socket.of_fd 3) ping 4 wired))) = k /\
    pending (snd (socket.send_all flaky 5 (socket.of_fd 3) ping 4 wired)) 4
      = pending wired 4 ++ take (Z.to_nat k) ping.
Proof.
  split; [reflexivity|].
  apply (send_all_leaves_a_prefix flaky (socket.of_fd 3) ping 4 5 wired 4).
  - apply flaky_sends.
  - lia.
  - reflexivity.
Defined.

(** X16: over a transport that never reports more than it was asked or
    than is queued, however [recv_all] ends, the [k <= size] bytes it took
    from the queue are the first [k] bytes of the buffer, the rest of the
    buffer is as the caller left it and the rest of the queue is still
    queued: no byte is lost and none is written past [size]; [k = size]
    when it returned. *)
Theorem recv_all_keeps_what_it_took E (this : socket.t) (buffer : list byte)
    (size : Z) (fuel : nat) (w : world) :
  recvs_bounded E ->
  0 <= size < 2 ^ 64 ->
  size <= Z.of_nat (length buffer) ->
  let run := socket.recv_all E fuel this buffer size w in
  let queue := pending w (socket.sock this) in
  exists k,
    0 <= k <= size /\
    (fst (fst run) = Ret tt -> k = size) /\
    snd (fst run) = take (Z.to_nat k) queue ++ drop (Z.to_nat k) buffer /\
    length (snd (fst run)) = length buffer /\
    pending (snd run) (socket.sock this) = drop (Z.to_nat k) queue.
Proof.
  intros HE Hsize Hbuf run queue. destruct run as [[res buffer'] w'] eqn:Hrun.
  unfold run, socket.recv_all in Hrun.
  apply (recv_all_from_prefix E this size fuel HE Hsize) in Hrun
    as (k & Hk & Hret & Havail & Hb & Hq); [|lia|lia].
  rewrite Z.sub_0_r in Havail, Hb, Hq.
  change (Z.to_nat 0) with 0%nat in Hb. rewrite take_0, app_nil_l in Hb.
  exists k. cbn [fst snd]. fold queue in Hb, Hq, Havail.
  split; [lia|]. split; [done|]. split; [done|]. split; [|done].
  rewrite Hb, length_app, length_take, length_drop. lia.
Qed.

Lemma recv_all_keeps_what_it_took_witness :
  fst (fst (socket.recv_all flaky 5 (socket.of_fd 4) blank 4
              (set_inbox 4 ping wired)))
    = Throw (NetworkException 104) /\
  exists k,
    0 <= k <= 4 /\
    (fst (fst (socket.recv_all flaky 5 (socket.of_fd 4) blank 4
                 (set_inbox 4 ping wired))) = Ret tt -> k = 4) /\
    snd (fst (socket.recv_all flaky 5 (socket.of_fd 4) blank 4
                (set_inbox 4 ping wired)))
      = take (Z.to_nat k) (pending (set_inbox 4 ping wired) 4)
        ++ drop (Z.to_nat k) blank /\
    length (snd (fst (socket.recv_all flaky 5 (socket.of_fd 4) blank 4
                        (set_inbox 4 ping wired)))) = length blank /\
    pending (snd (socket.recv_all flaky 5 (socket.of_fd 4) blank 4
                    (set_inbox 4 ping wired))) 4
      = drop (Z.to_nat k) (pending (set_inbox 4 ping wired) 4).
Proof.
  split; [reflexivity|].
  apply (recv_all_keeps_what_it_took flaky (socket.of_fd 4) blank 4 5
           (set_inbox 4 ping wired)).
  - apply flaky_recvs.
  - lia.
  - simpl. lia.
Defined.

Example flaky_recv_keeps_two_bytes :
  snd (fst (socket.recv_all flaky 5 (socket.of_fd 4) blank 4
              (set_inbox 4 ping wired)))
    = [Byte.x70; Byte.x69; Byte.x00; Byte.x00] /\
  pending (snd (socket.recv_all flaky 5 (socket.of_fd 4) blank 4
                  (set_inbox 4 ping wired))) 4
    = [Byte.x6e; Byte.x67].
Proof. split; vm_compute; reflexivity. Qed.

(** X17: while every attempt makes progress, a transfer of [size] bytes
    takes at most [size] calls: [send_all] makes at most [size] sends, and
    [recv_all], when the bytes are queued, at most [size] receives. *)
Theorem transfer_takes_at_most_size_calls E (this : socket.t)
    (buffer : list byte) (size : Z) (fuel : nat) (w : world) :
  0 <= size < 2 ^ 64 ->
  (Z.to_nat size < fuel)%nat ->
  (sends_progress E ->
   Z.of_nat (length (new_events w
                       (snd (socket.send_all E fuel this buffer size w))))
     <= size) /\
  (recvs_progress E ->
   size <= Z.of_nat (length buffer) ->
   size <= Z.of_nat (length (pending w (socket.sock this))) ->
   Z.of_nat (length (new_events w
                       (snd (socket.recv_all E fuel this buffer size w))))
     <= size).
Proof.
  intros Hsize Hfuel. split.
  - intros HE.
    destruct (send_all_from_ok E this buffer size fuel HE Hsize 0 w)
      as (w' & t & Hrun & Ht & Hall & Hsum & _); [lia | lia |].
    destruct (send_all_from_abort E this buffer size fuel 0 w _ _ Hrun)
      as (t' & Ht' & _ & Hlast).
    rewrite Ht in Ht'. apply app_inv_head in Ht'. subst t'.
    unfold socket.send_all. rewrite Hrun. cbn [snd].
    rewrite (new_events_app _ _ _ Ht), <- (Z.sub_0_r size), <- Hsum.
    apply attempts_at_most_bytes; [done|].
    intros i e Hi. destruct (attempt_failed e) eqn:Hf; [|done].
    by destruct (Hlast i e Hi Hf) as [_ ?].
  - intros HE Hbuf Hq.
    destruct (recv_all_from_ok E this size fuel HE Hsize buffer 0 w)
      as (b & w' & t & Hrun & Ht & Hall & Hsum & _); [lia | lia | lia | lia |].
    destruct (recv_all_from_abort E this size fuel buffer 0 w _ _ _ Hrun)
      as (t' & Ht' & _ & Hlast).
    rewrite Ht in Ht'. apply app_inv_head in Ht'. subst t'.
    unfold socket.recv_all. rewrite Hrun. cbn [snd].
    rewrite (new_events_app _ _ _ Ht), <- (Z.sub_0_r size), <- Hsum.
    apply attempts_at_most_bytes; [done|].
    intros i e Hi. destruct (attempt_failed e) eqn:Hf; [|done].
    by destruct (Hlast i e Hi Hf) as [_ ?].
Qed.

Lemma transfer_takes_at_most_size_calls_witness :
  Z.of_nat (length (new_events wired
              (snd (socket.send_all (chunked 3) 5 (socket.of_fd 3) ping 4
                      wired)))) <= 4 /\
  Z.of_nat (length (new_events (set_inbox 4 ping wired)
              (snd (socket.recv_all (chunked 3) 5 (socket.of_fd 4) blank 4
                      (set_inbox 4 ping wired))))) <= 4.
Proof.
  split.
  - destruct (transfer_takes_at_most_size_calls (chunked 3) (socket.of_fd 3)
                ping 4 5 wired) as [Hsend _]; [lia | lia |].
    apply Hsend, chunked_sends.
  - destruct (transfer_takes_at_most_size_calls (chunked 3) (socket.of_fd 4)
                blank 4 5 (set_inbox 4 ping wired)) as [_ Hrecv]; [lia | lia |].
    apply Hrecv; [apply chunked_recvs | simpl; lia | vm_compute; discriminate].
Defined.

(** ** read_alloc and transfers in sequence *)

(** X18: while every attempt makes progress and [size] bytes are queued,
    [read_alloc(size)] returns a block of exactly [size] bytes, the head of
    the queue, whatever the fresh block held, and leaves the rest
    queued. *)
Theorem read_alloc_returns_queue_head E (this : socket.t)
    (fresh : list byte) (size : Z) (fuel : nat) (w : world) :
  recvs_progress E ->
  0 <= size <= INT_MAX ->
  Z.of_nat (length fresh) = size ->
  size <= Z.of_nat (length (pending w (socket.sock this))) ->
  (Z.to_nat size < fuel)%nat ->
  let queue := pending w (socket.sock this) in
  exists w',
    socket.read_alloc E fuel fresh this size w
      = (Ret (take (Z.to_nat size) queue), w') /\
    Z.of_nat (length (take (Z.to_nat size) queue)) = size /\
    pending w' (socket.sock this) = drop (Z.to_nat size) queue.
Proof.
  intros HE Hsize Hfresh Hq Hfuel queue. unfold INT_MAX in Hsize.
  destruct (recv_all_from_ok E this size fuel HE ltac:(lia) fresh 0 w)
    as (b & w' & t & Hrun & _ & _ & _ & Hb & Hrest); [lia | lia | lia | lia |].
  rewrite Z.sub_0_r in Hb, Hrest.
  change (Z.to_nat 0) with 0%nat in Hb. rewrite take_0, app_nil_l in Hb.
  rewrite drop_ge, app_nil_r in Hb by lia.
  exists w'. unfold socket.read_alloc, socket.recv_all.
  rewrite to_size_t_small by lia. rewrite Hrun, Hb.
  split; [done|]. split; [|done]. rewrite length_take. fold queue in Hq. lia.
Qed.

Lemma read_alloc_returns_queue_head_witness :
  exists w',
    socket.read_alloc (chunked 3) 5 blank (socket.of_fd 4) 4
      (set_inbox 4 ping wired)
      = (Ret (take (Z.to_nat 4) (pending (set_inbox 4 ping wired) 4)), w') /\
    Z.of_nat (length (take (Z.to_nat 4) (pending (set_inbox 4 ping wired) 4)))
      = 4 /\
    pending w' 4 = drop (Z.to_nat 4) (pending (set_inbox 4 ping wired) 4).
Proof.
  apply (read_alloc_returns_queue_head (chunked 3) (socket.of_fd 4) blank 4 5
           (set_inbox 4 ping wired)).
  - apply chunked_recvs.
  - unfold INT_MAX. lia.
  - reflexivity.
  - vm_compute. discriminate.
  - simpl. lia.
Defined.

(** X19: the handle imposes no framing.  Over a connected pair with nothing
    queued, two [send_all] in a row followed by one [recv_all] of the sum
    of their sizes on the peer deliver the two byte sequences one after the
    other. *)
Theorem sends_concatenate E (a b : socket.t) (d1 d2 buffer : list byte)
    (n1 n2 : Z) (fuel : nat) (w : world) :
  sends_progress E -> recvs_progress E ->
  Z.of_nat (length d1) = n1 -> Z.of_nat (length d2) = n2 ->
  n1 + n2 < 2 ^ 64 ->
  Z.of_nat (length buffer) = n1 + n2 ->
  peer w !! socket.sock a = Some (socket.sock b) ->
  pending w (socket.sock b) = [] ->
  (Z.to_nat (n1 + n2) < fuel)%nat ->
  exists w1 w2 w3,
    socket.send_all E fuel a d1 n1 w = (Ret tt, w1) /\
    socket.send_all E fuel a d2 n2 w1 = (Ret tt, w2) /\
    socket.recv_all E fuel b buffer (n1 + n2) w2 = (Ret tt, d1 ++ d2, w3).
Proof.
  intros Hs Hr Hd1 Hd2 Hsum Hbuf Hpeer Hempty Hfuel.
  destruct (send_all_from_ok E a d1 n1 fuel Hs ltac:(lia) 0 w)
    as (w1 & t1 & Hrun1 & _ & _ & _ & Hpeer1 & Hq1); [lia | lia |].
  specialize (Hq1 _ Hpeer). rewrite Hempty, Z.sub_0_r in Hq1.
  change (Z.to_nat 0) with 0%nat in Hq1. rewrite drop_0, app_nil_l in Hq1.
  rewrite take_ge in Hq1 by lia.
  destruct (send_all_from_ok E a d2 n2 fuel Hs ltac:(lia) 0 w1)
    as (w2 & t2 & Hrun2 & _ & _ & _ & _ & Hq2); [lia | lia |].
  rewrite Hpeer1 in Hq2. specialize (Hq2 _ Hpeer).
  rewrite Hq1, Z.sub_0_r in Hq2.
  change (Z.to_nat 0) with 0%nat in Hq2. rewrite drop_0 in Hq2.
  rewrite take_ge in Hq2 by lia.
  destruct (recv_all_from_ok E b (n1 + n2) fuel Hr ltac:(lia) buffer 0 w2)
    as (buffer' & w3 & t3 & Hrun3 & _ & _ & _ & Hb & _);
    [lia | lia | rewrite Hq2, length_app; lia | lia |].
  exists w1, w2, w3. split; [done|]. split; [done|].
  unfold socket.recv_all. rewrite Hrun3. f_equal. f_equal.
  rewrite Hb, Hq2, Z.sub_0_r.
  change (Z.to_nat 0) with 0%nat. rewrite take_0, app_nil_l.
  rewrite take_ge, drop_ge by (rewrite ?length_app; lia).
  by rewrite app_nil_r.
Qed.

Lemma sends_concatenate_witness :
  exists w1 w2 w3,
    socket.send_all (chunked 3) 9 (socket.of_fd 3) ping 4 wired
      = (Ret tt, w1) /\
    socket.send_all (chunked 3) 9 (socket.of_fd 3) pong 4 w1
      = (Ret tt, w2) /\
    socket.recv_all (chunked 3) 9 (socket.of_fd 4) (blank ++ blank) (4 + 4) w2
      = (Ret tt, ping ++ pong, w3).
Proof.
  apply (sends_concatenate (chunked 3) (socket.of_fd 3) (socket.of_fd 4)
           ping pong (blank ++ blank) 4 4 9 wired).
  - apply chunked_sends.
  - apply chunked_recvs.
  - reflexivity.
  - reflexivity.
  - lia.
  - reflexivity.
  - reflexivity.
  - reflexivity.
  - simpl. lia.
Defined.

(** X20: and what one [send_all] sent can be received in pieces: over a
    connected pair with nothing queued, a [recv_all] of [k] bytes followed
    by a [recv_all] of the remaining [n - k] bytes on the peer deliver the
    first [k] and the remaining bytes of what was sent. *)
Theorem receive_in_pieces E (a b : socket.t) (data buf1 buf2 : list byte)
    (n k : Z) (fuel : nat) (w : world) :
  sends_progress E -> recvs_progress E ->
  0 <= k <= n -> n < 2 ^ 64 ->
  Z.of_nat (length data) = n ->
  Z.of_nat (length buf1) = k ->
  Z.of_nat (length buf2) = n - k ->
  peer w !! socket.sock a = Some (socket.sock b) ->
  pending w (socket.sock b) = [] ->
  (Z.to_nat n < fuel)%nat ->
  exists w1 w2 w3,
    socket.send_all E fuel a data n w = (Ret tt, w1) /\
    socket.recv_all E fuel b buf1 k w1
      = (Ret tt, take (Z.to_nat k) data, w2) /\
    socket.recv_all E fuel b buf2 (n - k) w2
      = (Ret tt, drop (Z.to_nat k) data, w3).
Proof.
  intros Hs Hr Hk Hn Hdata Hb1 Hb2 Hpeer Hempty Hfuel.
  destruct (send_all_from_ok E a data n fuel Hs ltac:(lia) 0 w)
    as (w1 & t1 & Hrun1 & _ & _ & _ & _ & Hq1); [lia | lia |].
  specialize (Hq1 _ Hpeer). rewrite Hempty, Z.sub_0_r in Hq1.
  change (Z.to_nat 0) with 0%nat in Hq1. rewrite drop_0, app_nil_l in Hq1.
  rewrite take_ge in Hq1 by lia.
  destruct (recv_all_from_ok E b k fuel Hr ltac:(lia) buf1 0 w1)
    as (b1 & w2 & t2 & Hrun2 & _ & _ & _ & Hres1 & Hq2);
    [lia | lia | rewrite Hq1; lia | lia |].
  rewrite Hq1, Z.sub_0_r in Hres1, Hq2.
  change (Z.to_nat 0) with 0%nat in Hres1. rewrite take_0, app_nil_l in Hres1.
  rewrite drop_ge, app_nil_r in Hres1 by lia.
  destruct (recv_all_from_ok E b (n - k) fuel Hr ltac:(lia) buf2 0 w2)
    as (b2 & w3 & t3 & Hrun3 & _ & _ & _ & Hres2 & _);
    [lia | lia | rewrite Hq2, length_drop; lia | lia |].
  rewrite Hq2, Z.sub_0_r in Hres2.
  change (Z.to_nat 0) with 0%nat in Hres2. rewrite take_0, app_nil_l in Hres2.
  rewrite take_ge in Hres2 by (rewrite length_drop; lia).
  rewrite (drop_ge buf2), app_nil_r in Hres2 by lia.
  exists w1, w2, w3. split; [done|].
  unfold socket.recv_all. by rewrite Hrun2, Hrun3, Hres1, Hres2.
Qed.

Lemma receive_in_pieces_witness :
  exists w1 w2 w3,
    socket.send_all (chunked 3) 5 (socket.of_fd 3) ping 4 wired
      = (Ret tt, w1) /\
    socket.recv_all (chunked 3) 5 (socket.of_fd 4) [Byte.x00] 1 w1
      = (Ret tt, take (Z.to_nat 1) ping, w2) /\
    socket.recv_all (chunked 3) 5 (socket.of_fd 4)
      [Byte.x00; Byte.x00; Byte.x00] (4 - 1) w2
      = (Ret tt, drop (Z.to_nat 1) ping, w3).
Proof.
  apply (receive_in_pieces (chunked 3) (socket.of_fd 3) (socket.of_fd 4)
           ping [Byte.x00] [Byte.x00; Byte.x00; Byte.x00] 4 1 5 wired).
  - apply chunked_sends.
  - apply chunked_recvs.
  - lia.
  - lia.
  - reflexivity.
  - reflexivity.
  - reflexivity.
  - reflexivity.
  - reflexivity.
  - simpl. lia.
Defined.

(** ** Handles that were closed or moved from *)

(** X21: [close()] does not give the descriptor up, so destroying a handle
    with a valid descriptor after [close()] shuts the descriptor down a
    second time and only then closes it; the handle ends with the
    sentinel. *)
Theorem close_then_destroy E (this : socket.t) (w : world) :
  0 <= socket.sock this ->
  let closed := socket.close E this w in
  let gone := socket.destroy E (fst closed) (snd closed) in
  let fd := socket.sock this in
  socket.sock (fst gone) = -1 /\
  exists r1 r2 r3,
    new_events w (snd gone) =
      [Call (c_shutdown fd SHUT_RDWR) r1;
       Call (c_shutdown fd SHUT_RDWR) r2;
       Call (c_close fd) r3].
Proof.
  intros Hvalid closed gone fd. split; [done|].
  unfold gone, closed, socket.destroy, socket.close.
  unfold socket_ops.close, socket_ops.shutdown. cbn [fst snd]. fold fd.
  destruct (Z.leb_spec 0 fd) as [Hle|Hgt]; [|unfold fd in *; lia].
  eexists _, _, _. apply new_events_app. cbn [snd].
  rewrite !call_trace. by rewrite <- !app_assoc.
Qed.

Lemma close_then_destroy_witness :
  socket.sock
    (fst (socket.destroy quiet (fst (socket.close quiet (socket.of_fd 3) idle))
            (snd (socket.close quiet (socket.of_fd 3) idle)))) = -1 /\
  exists r1 r2 r3,
    new_events idle
      (snd (socket.destroy quiet
              (fst (socket.close quiet (socket.of_fd 3) idle))
              (snd (socket.close quiet (socket.of_fd 3) idle)))) =
      [Call (c_shutdown 3 SHUT_RDWR) r1;
       Call (c_shutdown 3 SHUT_RDWR) r2;
       Call (c_close 3) r3].
Proof. apply (close_then_destroy quiet (socket.of_fd 3) idle). simpl. lia. Defined.

(** X22: the transfer functions do not look at the descriptor.  On a
    moved-from handle a [send_all] of at least one byte still calls [send],
    on descriptor -1, offering the whole buffer. *)
Theorem send_all_on_moved_from_handle E (indeterminate : Z) (rhs : socket.t)
    (buffer : list byte) (size : Z) (fuel : nat) (w : world) :
  0 < size < 2 ^ 64 ->
  (0 < fuel)%nat ->
  let src := snd (socket.move indeterminate rhs) in
  exists r rest,
    new_events w (snd (socket.send_all E fuel src buffer size w)) =
      Call (c_send (-1) (take (Z.to_nat size) buffer) size MSG_NOSIGNAL) r
      :: rest.
Proof.
  intros Hsize Hfuel src. destruct fuel as [|fuel]; [lia|].
  unfold socket.send_all. cbn [socket.send_all_from].
  destruct (Z.eqb_spec 0 size) as [?|_]; [lia|].
  pose proof (send_step E src (drop (Z.to_nat 0) buffer)
                (to_size_t (size - 0)) w) as Hs.
  cbv zeta in Hs. rewrite Hs. clear Hs.
  rewrite Z.sub_0_r, to_size_t_small by lia.
  change (Z.to_nat 0) with 0%nat. rewrite drop_0.
  change (socket.sock src) with (-1).
  set (c := c_send _ _ _ _). set (r := answer E w c).
  set (w2 := if 0 <? value r then _ else _).
  assert (trace w2 = trace w ++ [Call c (value r)]) as Ht.
  { unfold w2. destruct (0 <? value r); by rewrite ?deliver_trace. }
  destruct (to_int (value r) <=? 0).
  - exists (value r), []. by apply new_events_app.
  - destruct (send_all_from_calls E src buffer size fuel
                (to_size_t (0 + to_int (value r))) w2) as (t & Ht' & _).
    exists (value r), t. apply new_events_app.
    rewrite Ht', Ht. by rewrite <- app_assoc.
Qed.

Lemma send_all_on_moved_from_handle_witness :
  exists r rest,
    new_events idle
      (snd (socket.send_all quiet 5 (snd (socket.move 0 (socket.of_fd 3)))
              ping 4 idle)) =
      Call (c_send (-1) (take (Z.to_nat 4) ping) 4 MSG_NOSIGNAL) r :: rest.
Proof.
  apply (send_all_on_moved_from_handle quiet 0 (socket.of_fd 3) ping 4 5 idle);
    lia.
Defined.
